(** * DatabaseCore: a shallow embedding of the ORM and schema migrator

    The development follows [backend/database/core.ts] (class
    [DatabaseCore]).  Every method the properties below talk about is
    transcribed as a function in a state-and-error monad over an explicit
    model of the backing store; the store model plays the role of the
    query builder and of the embedded SQL engine the class drives.

    Conventions.
    - A JavaScript object used as a record of raw values is a
      [gmap string _]; a key that is absent and a key holding [undefined]
      are not told apart (no code path below distinguishes them).
    - [await] is sequencing.  Calls the source fires without [await] are
      sequenced at their call site as well.
    - The store keeps values as they are bound (no column affinity, no
      referential-integrity enforcement); it does reject unknown tables,
      unknown columns, values that cannot be bound, duplicate primary keys
      and nulls in NOT NULL columns. *)

From stdpp Require Import gmap strings list fin_maps sorting pretty.
From Stdlib Require Import ZArith Lia Ascii.

Set Warnings "-register-all".
Open Scope string_scope.
Open Scope list_scope.

(** ** Values *)

(** [RawValue]: what a cell of a table, or a scalar entry of a
    [FieldValueMap], can hold. *)
Inductive RawValue :=
| VNull
| VStr (s : string)
| VNum (z : Z)
| VBool (b : bool).

Global Instance RawValue_eq_dec : EqDecision RawValue.
Proof. solve_decision. Defined.

(** [FieldValueMap]: scalar entries, and for Table fields a list of child
    maps. *)
Inductive FValue :=
| FRaw (v : RawValue)
| FRows (children : list (gmap string FValue)).

Abbreviation FieldValueMap := (gmap string FValue).
Abbreviation Row := (gmap string RawValue).

(** ** Schema model *)

Record Field := mkField {
  fieldname : string;
  fieldtype : string;
  required : bool;
  default_value : option RawValue;
  target : option string;
}.

Record Schema := mkSchema {
  schema_name : string;
  isSingle : bool;
  fields : list Field;
}.

(** The schema map is a JavaScript object: string keys kept in insertion
    order; [schemaMap[k]] finds the entry for [k]. *)
Abbreviation SchemaMap := (list (string * Schema)).

Fixpoint schema_lookup (schemaMap : SchemaMap) (k : string) : option Schema :=
  match schemaMap with
  | [] => None
  | (k', s) :: rest => if decide (k' = k) then Some s else schema_lookup rest k
  end.

Definition FieldTypeEnum_Table : string := "Table".
Definition FieldTypeEnum_Link : string := "Link".

Definition is_table_field (f : Field) : bool :=
  bool_decide (fieldtype f = FieldTypeEnum_Table).

(** ** The backing store *)

Record Column := mkColumn {
  col_name : string;
  col_type : string;
  col_primary : bool;
  col_default : option RawValue;
  col_notnull : bool;
}.

Record ForeignKey := mkForeignKey {
  fk_from : string;
  fk_table : string;
}.

Record Table := mkTable {
  t_columns : list Column;
  t_foreign : list ForeignKey;
  t_rows : list Row;
}.

Record Database := mkDatabase {
  tables : gmap string Table;
  foreign_keys : bool;               (* PRAGMA foreign_keys *)
  transaction : option (gmap string Table); (* tables as of BEGIN *)
  ticks : nat;                       (* draws of randomness and of the clock *)
}.

Inductive Error :=
| ValueError (message : string)
| NotFoundError
| TypeError
| DbError.

Inductive Result (A : Type) :=
| Ok (a : A)
| Err (e : Error).
Arguments Ok {A} a.
Arguments Err {A} e.

(** State passing with exceptions; the state at the point of failure is
    kept, as a thrown error leaves earlier writes in place. *)
Definition M (A : Type) : Type := Database → Result A * Database.

Global Instance M_ret : MRet M := λ A a db, (Ok a, db).
Global Instance M_bind : MBind M := λ A B f c db,
  match c db with
  | (Ok a, db') => f a db'
  | (Err e, db') => (Err e, db')
  end.

Definition throw {A} (e : Error) : M A := λ db, (Err e, db).
Definition lift {A} (r : Result A) : M A := λ db, (r, db).
Definition get_db : M Database := λ db, (Ok db, db).
Definition set_tables (ts : gmap string Table) : M unit :=
  λ db, (Ok tt, mkDatabase ts (foreign_keys db) (transaction db) (ticks db)).

(** [try c handler]: [try { c } catch (err) { handler err }]. *)
Definition try {A} (c : M A) (handler : Error → M A) : M A := λ db,
  match c db with
  | (Ok a, db') => (Ok a, db')
  | (Err e, db') => handler e db'
  end.

Definition rbind {A B} (r : Result A) (f : A → Result B) : Result B :=
  match r with Ok a => f a | Err e => Err e end.

Fixpoint for_each {A} (l : list A) (body : A → M unit) : M unit :=
  match l with
  | [] => mret tt
  | x :: rest => body x ;; for_each rest body
  end.

Fixpoint fold_each {A S} (l : list A) (acc : S) (body : S → A → M S) : M S :=
  match l with
  | [] => mret acc
  | x :: rest => acc' ← body acc x; fold_each rest acc' body
  end.

Fixpoint rmap {A B} (f : A → Result B) (l : list A) : Result (list B) :=
  match l with
  | [] => Ok []
  | x :: rest => rbind (f x) (λ y, rbind (rmap f rest) (λ ys, Ok (y :: ys)))
  end.

(** *** Cells, comparison and pattern matching *)

Definition cell (r : Row) (c : string) : RawValue := default VNull (r !! c).

Definition column_names (t : Table) : list string := col_name <$> t_columns t.

Definition has_column (t : Table) (c : string) : bool :=
  bool_decide (c ∈ column_names t).

(** Booleans are bound as the numbers 0 and 1. *)
Definition as_number (v : RawValue) : option Z :=
  match v with
  | VNum z => Some z
  | VBool b => Some (if b then 1 else 0)%Z
  | _ => None
  end.

(** Ordering of storage classes: numbers before text; NULL compares with
    nothing. *)
Definition compare_raw (a b : RawValue) : option comparison :=
  match a, b with
  | VNull, _ | _, VNull => None
  | VStr s, VStr s' => Some (String.compare s s')
  | VStr _, _ => Some Gt
  | _, VStr _ => Some Lt
  | _, _ =>
      match as_number a, as_number b with
      | Some x, Some y => Some (x ?= y)%Z
      | _, _ => None
      end
  end.

Definition lower_ascii (c : ascii) : ascii :=
  let n := nat_of_ascii c in
  if ((65 <=? n) && (n <=? 90))%nat then ascii_of_nat (n + 32) else c.

Fixpoint toLowerCase (s : string) : string :=
  match s with
  | EmptyString => EmptyString
  | String c rest => String (lower_ascii c) (toLowerCase rest)
  end.

(** [s.includes(c)] for a one-character needle. *)
Fixpoint includes_char (c : ascii) (s : string) : bool :=
  match s with
  | EmptyString => false
  | String c' rest => bool_decide (c = c') || includes_char c rest
  end.

(** LIKE: [%] matches any run, [_] one character, letters match without
    regard to ASCII case. *)
Fixpoint like_match (pattern : string) : string → bool :=
  match pattern with
  | EmptyString => λ s, match s with EmptyString => true | _ => false end
  | String p rest =>
      if bool_decide (p = "%"%char) then
        fix skip (s : string) : bool :=
          like_match rest s ||
          match s with
          | EmptyString => false
          | String _ s' => skip s'
          end
      else λ s,
        match s with
        | EmptyString => false
        | String c s' =>
            (bool_decide (p = "_"%char) ||
             bool_decide (lower_ascii p = lower_ascii c)) && like_match rest s'
        end
  end.

Definition text_of (v : RawValue) : option string :=
  match v with
  | VStr s => Some s
  | _ => None
  end.

(** Equality as the engine tests it: NULL equals nothing, a boolean is
    the number it is bound as. *)
Definition bound (v : RawValue) : RawValue :=
  match v with
  | VBool b => VNum (if b then 1 else 0)%Z
  | _ => v
  end.

Definition sql_eq (a b : RawValue) : bool :=
  match a, b with
  | VNull, _ | _, VNull => false
  | _, _ => bool_decide (bound a = bound b)
  end.

(** Sort order of ORDER BY: NULL first, then numbers, then text. *)
Definition order_leb (a b : RawValue) : bool :=
  match a, b with
  | VNull, _ => true
  | _, VNull => false
  | VStr s, VStr s' => String.leb s s'
  | VStr _, _ => false
  | _, VStr _ => true
  | _, _ =>
      match as_number a, as_number b with
      | Some x, Some y => (x <=? y)%Z
      | _, _ => true
      end
  end.

Inductive Order := asc | desc.

Definition row_le (column : string) (o : Order) (r1 r2 : Row) : Prop :=
  match o with
  | asc => order_leb (cell r1 column) (cell r2 column)
  | desc => order_leb (cell r2 column) (cell r1 column)
  end.

Global Instance row_le_dec column o r1 r2 : Decision (row_le column o r1 r2).
Proof. unfold row_le. destruct o; apply _. Defined.

(** *** Where clauses *)

Inductive Operand :=
| OVal (v : RawValue)
| OList (l : list RawValue)
| OUndef.

(** The two shapes of [builder.where] the class uses. *)
Inductive Where :=
| Where2 (column : string) (value : Operand)
| Where3 (column : string) (operator : RawValue) (value : Operand).

Definition where_column (w : Where) : string :=
  match w with
  | Where2 c _ | Where3 c _ _ => c
  end.

Definition permitted_operators : list string :=
  ["="; "!="; "<>"; "<"; "<="; ">"; ">="; "like"; "not like"; "in"; "not in"].

(** Does the operator accept the operand?  A missing operand is an
    undefined binding; lists go with [in] and [not in] only. *)
Definition operand_ok (operator : string) (value : Operand) : bool :=
  match value with
  | OUndef => false
  | OVal _ => negb (bool_decide (operator ∈ ["in"; "not in"]))
  | OList _ => bool_decide (operator ∈ ["in"; "not in"])
  end.

Definition where_operator (w : Where) : option string :=
  match w with
  | Where2 _ _ => Some "="
  | Where3 _ (VStr op) _ => Some (toLowerCase op)
  | Where3 _ _ _ => None
  end.

Definition where_operand (w : Where) : Operand :=
  match w with
  | Where2 _ v | Where3 _ _ v => v
  end.

(** A clause compiles when its column exists, its operator is permitted
    and its operand can be bound. *)
Definition where_compiles (t : Table) (w : Where) : bool :=
  has_column t (where_column w) &&
  match where_operator w with
  | Some op => bool_decide (op ∈ permitted_operators) && operand_ok op (where_operand w)
  | None => false
  end.

Definition test_operator (operator : string) (c : RawValue) (value : Operand) : bool :=
  match value with
  | OVal v =>
      if bool_decide (operator = "=") then
        match v with VNull => bool_decide (c = VNull) | _ => sql_eq c v end
      else if bool_decide (operator ∈ ["!="; "<>"]) then
        match v with
        | VNull => negb (bool_decide (c = VNull))
        | _ => match c with VNull => false | _ => negb (sql_eq c v) end
        end
      else if bool_decide (operator = "<") then
        bool_decide (compare_raw c v = Some Lt)
      else if bool_decide (operator = "<=") then
        bool_decide (compare_raw c v = Some Lt) || bool_decide (compare_raw c v = Some Eq)
      else if bool_decide (operator = ">") then
        bool_decide (compare_raw c v = Some Gt)
      else if bool_decide (operator = ">=") then
        bool_decide (compare_raw c v = Some Gt) || bool_decide (compare_raw c v = Some Eq)
      else if bool_decide (operator = "like") then
        match text_of v, text_of c with
        | Some p, Some s => like_match p s
        | _, _ => false
        end
      else if bool_decide (operator = "not like") then
        match text_of v, text_of c with
        | Some p, Some s => negb (like_match p s)
        | _, _ => false
        end
      else false
  | OList l =>
      if bool_decide (operator = "in") then existsb (sql_eq c) l
      else if bool_decide (operator = "not in") then
        match l with
        | [] => true
        | _ => negb (bool_decide (c = VNull)) && negb (bool_decide (VNull ∈ l))
               && negb (existsb (sql_eq c) l)
        end
      else false
  | OUndef => false
  end.

Definition where_test (w : Where) (r : Row) : bool :=
  match where_operator w with
  | Some op => test_operator op (cell r (where_column w)) (where_operand w)
  | None => false
  end.

(** Successive [where] calls are conjoined. *)
Definition wheres_test (ws : list Where) (r : Row) : bool :=
  forallb (λ w, where_test w r) ws.

(** *** Queries *)

Record Query := mkQuery {
  q_table : string;
  q_fields : list string;
  q_where : list Where;
  q_groupBy : option string;
  q_orderBy : option (string * Order);
  q_offset : option nat;
  q_limit : option nat;
}.

Definition from (tableName : string) : Query :=
  mkQuery tableName ["*"] [] None None None None.

Definition project (t : Table) (fs : list string) (r : Row) : Row :=
  list_to_map ((λ c, (c, cell r c)) <$>
    (fs ≫= λ f, if bool_decide (f = "*") then column_names t else [f])).

(** One row per distinct value of the grouping column (the first one met). *)
Fixpoint group_rows (column : string) (seen : list RawValue) (rows : list Row)
  : list Row :=
  match rows with
  | [] => []
  | r :: rest =>
      if bool_decide (cell r column ∈ seen) then group_rows column seen rest
      else r :: group_rows column (cell r column :: seen) rest
  end.

Definition field_selectable (t : Table) (f : string) : bool :=
  bool_decide (f = "*") || has_column t f.

Definition option_column_ok (t : Table) (c : option string) : bool :=
  match c with
  | Some c => has_column t c
  | None => true
  end.

(** Can the engine prepare the statement? *)
Definition query_compiles (t : Table) (q : Query) : bool :=
  forallb (field_selectable t) (q_fields q) &&
  forallb (where_compiles t) (q_where q) &&
  option_column_ok t (q_groupBy q) &&
  option_column_ok t (fst <$> q_orderBy q).

Definition apply_group (g : option string) (rows : list Row) : list Row :=
  match g with
  | Some c => group_rows c [] rows
  | None => rows
  end.

Definition apply_order (o : option (string * Order)) (rows : list Row) : list Row :=
  match o with
  | Some (c, dir) => merge_sort (row_le c dir) rows
  | None => rows
  end.

Definition apply_offset (n : option nat) (rows : list Row) : list Row :=
  match n with
  | Some n => drop n rows
  | None => rows
  end.

Definition apply_limit (n : option nat) (rows : list Row) : list Row :=
  match n with
  | Some n => take n rows
  | None => rows
  end.

Definition select_rows (t : Table) (q : Query) : list Row :=
  project t (q_fields q) <$>
    apply_limit (q_limit q)
      (apply_offset (q_offset q)
        (apply_order (q_orderBy q)
          (apply_group (q_groupBy q)
            (filter (λ r, wheres_test (q_where q) r) (t_rows t))))).

(** Running a select: [await builder]. *)
Definition run_select (q : Query) : M (list Row) := λ db,
  match tables db !! q_table q with
  | None => (Err NotFoundError, db)
  | Some t =>
      if query_compiles t q then (Ok (select_rows t q), db)
      else (Err DbError, db)
  end.

(** [builder.first()]. *)
Definition run_first (q : Query) : M (option Row) :=
  rows ← run_select q; mret (head rows).

(** [knex(table).count('column as count').where(..).first()]: the number
    of matching rows whose [column] is not NULL. *)
Definition run_count (tableName column : string) (ws : list Where) : M nat :=
  rows ← run_select (mkQuery tableName [column] ws None None None None);
  mret (length (filter (λ r, cell r column ≠ VNull) rows)).

(** [builder.where(o1).orWhere(o2)..select(fields)]: the groups are
    alternatives, the clauses of one group are conjoined. *)
Definition run_select_any (tableName : string) (fs : list string)
    (groups : list (list Where)) : M (list Row) := λ db,
  match tables db !! tableName with
  | None => (Err NotFoundError, db)
  | Some t =>
      if forallb (field_selectable t) fs &&
         forallb (forallb (where_compiles t)) groups
      then (Ok (project t fs <$>
                  filter (λ r, existsb (λ ws, wheres_test ws r) groups) (t_rows t)),
            db)
      else (Err DbError, db)
  end.

(** *** Writes *)

Definition put_table (tableName : string) (t : Table) : M unit := λ db,
  (Ok tt, mkDatabase (<[tableName := t]> (tables db))
            (foreign_keys db) (transaction db) (ticks db)).

Definition with_rows (t : Table) (rows : list Row) : Table :=
  mkTable (t_columns t) (t_foreign t) rows.

(** The stored row: every column, from the values given, else the column
    default, else NULL. *)
Definition new_row (t : Table) (values : Row) : Row :=
  list_to_map ((λ c, (col_name c,
     match values !! col_name c with
     | Some v => v
     | None => default VNull (col_default c)
     end)) <$> t_columns t).

Definition notnull_ok (t : Table) (r : Row) : bool :=
  forallb (λ c, negb (col_notnull c) || negb (bool_decide (cell r (col_name c) = VNull)))
    (t_columns t).

Definition primary_free (t : Table) (r : Row) : bool :=
  forallb (λ c, negb (col_primary c) ||
                negb (existsb (λ r', sql_eq (cell r' (col_name c)) (cell r (col_name c)))
                        (t_rows t)))
    (t_columns t).

Definition keys_are_columns (t : Table) (values : Row) : bool :=
  bool_decide (map_Forall (λ k _, k ∈ column_names t) values).

(** [knex(table).insert(values)]. *)
Definition run_insert (tableName : string) (values : Row) : M unit := λ db,
  match tables db !! tableName with
  | None => (Err NotFoundError, db)
  | Some t =>
      let r := new_row t values in
      if keys_are_columns t values && notnull_ok t r && primary_free t r
      then put_table tableName (with_rows t (t_rows t ++ [r])) db
      else (Err DbError, db)
  end.

(** [knex.batchInsert(table, rows)]: the rows one after the other, all or
    none (the batch runs in a transaction of its own). *)
Definition batchInsert (tableName : string) (rows : list Row) : M unit := λ db,
  match for_each rows (run_insert tableName) db with
  | (Ok u, db') => (Ok u, db')
  | (Err e, _) => (Err e, db)
  end.

(** [array.slice(start, end)]. *)
Definition slice {A} (l : list A) (start end_ : nat) : list A :=
  take (end_ - start) (drop start l).

(** No NULL is assigned to a NOT NULL column. *)
Definition assigned_ok (t : Table) (values : Row) : bool :=
  forallb (λ c, negb (col_notnull c) ||
                negb (bool_decide (values !! col_name c = Some VNull)))
    (t_columns t).

(** [knex(table).where(..).update(values)]; nothing to set is a warning
    and no statement. *)
Definition run_update (tableName : string) (ws : list Where) (values : Row) : M unit := λ db,
  if bool_decide (values = ∅) then (Ok tt, db) else
  match tables db !! tableName with
  | None => (Err NotFoundError, db)
  | Some t =>
      if forallb (where_compiles t) ws && keys_are_columns t values
         && (negb (existsb (wheres_test ws) (t_rows t)) || assigned_ok t values)
      then put_table tableName
             (with_rows t
                ((λ r, if wheres_test ws r then values ∪ r else r) <$> t_rows t)) db
      else (Err DbError, db)
  end.

(** The rows after an update, each with whether the statement hit it. *)
Definition marked_rows (ws : list Where) (values : Row) (rows : list Row)
  : list (bool * Row) :=
  (λ r, if wheres_test ws r then (true, values ∪ r) else (false, r)) <$> rows.

(** No row the statement hit shares its value of a primary column with
    another row. *)
Definition primary_kept (t : Table) (marked : list (bool * Row)) : bool :=
  forallb (λ c, negb (col_primary c) ||
     forallb (λ p, negb (fst p) ||
        bool_decide
          (length (filter (λ q, sql_eq (cell (snd q) (col_name c))
                                       (cell (snd p) (col_name c))) marked) ≤ 1)%nat)
       marked)
    (t_columns t).

(** [knex(table).update(values).where(..)] for values that may assign the
    primary key: as [run_update], and the statement fails when a row it
    changes would take the key of another row. *)
Definition run_update_key (tableName : string) (ws : list Where) (values : Row)
  : M unit := λ db,
  if bool_decide (values = ∅) then (Ok tt, db) else
  match tables db !! tableName with
  | None => (Err NotFoundError, db)
  | Some t =>
      if forallb (where_compiles t) ws && keys_are_columns t values
         && (negb (existsb (wheres_test ws) (t_rows t)) || assigned_ok t values)
         && primary_kept t (marked_rows ws values (t_rows t))
      then put_table tableName
             (with_rows t (snd <$> marked_rows ws values (t_rows t))) db
      else (Err DbError, db)
  end.

(** [knex(table).where(..).delete()]. *)
Definition run_delete (tableName : string) (ws : list Where) : M unit := λ db,
  match tables db !! tableName with
  | None => (Err NotFoundError, db)
  | Some t =>
      if forallb (where_compiles t) ws
      then put_table tableName
             (with_rows t (filter (λ r, ¬ wheres_test ws r) (t_rows t))) db
      else (Err DbError, db)
  end.

(** *** Schema statements, pragmas and transactions *)

(** [knex.schema.hasTable]. *)
Definition hasTable (tableName : string) : M bool := λ db,
  (Ok (bool_decide (is_Some (tables db !! tableName))), db).

(** [knex.schema.createTable]. *)
Definition schema_createTable (tableName : string) (cols : list Column)
    (fks : list ForeignKey) : M unit := λ db,
  match tables db !! tableName with
  | Some _ => (Err DbError, db)
  | None => put_table tableName (mkTable cols fks []) db
  end.

(** [knex.schema.table]: ALTER TABLE adding columns (and the foreign keys
    declared with them); rows already there read the new column's default. *)
Definition schema_alterTable (tableName : string) (cols : list Column)
    (fks : list ForeignKey) : M unit := λ db,
  match cols, fks with
  | [], [] => (Ok tt, db)
  | _, _ =>
      match tables db !! tableName with
      | None => (Err NotFoundError, db)
      | Some t =>
          if bool_decide (Exists (λ c, col_name c ∈ column_names t) cols)
          then (Err DbError, db)
          else put_table tableName
                 (mkTable (t_columns t ++ cols) (t_foreign t ++ fks)
                    ((λ r, r ∪ list_to_map
                        ((λ c, (col_name c, default VNull (col_default c))) <$> cols))
                     <$> t_rows t)) db
      end
  end.

Definition remove_table (tableName : string) : M unit := λ db,
  (Ok tt, mkDatabase (delete tableName (tables db))
            (foreign_keys db) (transaction db) (ticks db)).

(** [knex.schema.dropTable]. *)
Definition dropTable (tableName : string) : M unit :=
  present ← hasTable tableName;
  if present : bool then remove_table tableName else throw NotFoundError.

(** [knex.schema.dropTableIfExists]. *)
Definition dropTableIfExists (tableName : string) : M unit :=
  remove_table tableName.

(** [knex.schema.renameTable]. *)
Definition renameTable (old new : string) : M unit := λ db,
  match tables db !! old, tables db !! new with
  | None, _ => (Err NotFoundError, db)
  | Some _, Some _ => (Err DbError, db)
  | Some t, None =>
      (Ok tt, mkDatabase (<[new := t]> (delete old (tables db)))
                (foreign_keys db) (transaction db) (ticks db))
  end.

(** [PRAGMA foreign_keys=ON|OFF]. *)
Definition pragma_foreign_keys (on : bool) : M unit := λ db,
  (Ok tt, mkDatabase (tables db) on (transaction db) (ticks db)).

(** [PRAGMA table_info(t)] and [PRAGMA foreign_key_list(t)]: no rows for a
    table that does not exist. *)
Definition pragma_table_info (tableName : string) : M (list Column) := λ db,
  (Ok (from_option t_columns [] (tables db !! tableName)), db).

Definition pragma_foreign_key_list (tableName : string) : M (list ForeignKey) := λ db,
  (Ok (from_option t_foreign [] (tables db !! tableName)), db).


Definition begin_transaction : M unit := λ db,
  match transaction db with
  | Some _ => (Err DbError, db)
  | None => (Ok tt, mkDatabase (tables db) (foreign_keys db) (Some (tables db)) (ticks db))
  end.

Definition rollback : M unit := λ db,
  match transaction db with
  | Some ts => (Ok tt, mkDatabase ts (foreign_keys db) None (ticks db))
  | None => (Err DbError, db)
  end.

Definition commit_transaction : M unit := λ db,
  match transaction db with
  | Some _ => (Ok tt, mkDatabase (tables db) (foreign_keys db) None (ticks db))
  | None => (Err DbError, db)
  end.

(** [knex(temp).insert(knex.select().from(old))]: INSERT .. SELECT *,
    columns paired by position. *)
Definition insert_select_all (temp old : string) : M unit := λ db,
  match tables db !! temp, tables db !! old with
  | Some tt_, Some to =>
      if bool_decide (length (t_columns tt_) = length (t_columns to)) then
        for_each
          ((λ r, list_to_map
                   (zip (column_names tt_) ((λ c, cell r c) <$> column_names to)))
           <$> t_rows to)
          (run_insert temp) db
      else (Err DbError, db)
  | _, _ => (Err NotFoundError, db)
  end.

(** A call that is started and never awaited: its writes happen, its
    outcome is dropped. *)
Definition detached {A} (c : M A) : M unit := λ db,
  (Ok tt, snd (c db)).

(** ** JavaScript values *)

(** Truthiness of an entry that may be missing. *)
Definition truthy (v : option FValue) : bool :=
  match v with
  | None => false
  | Some (FRaw VNull) => false
  | Some (FRaw (VStr s)) => negb (bool_decide (s = ""))
  | Some (FRaw (VNum z)) => negb (bool_decide (z = 0%Z))
  | Some (FRaw (VBool b)) => b
  | Some (FRows _) => true
  end.

(** [null] or [undefined], as [??=] tests it. *)
Definition nullish (v : option FValue) : bool :=
  match v with
  | None | Some (FRaw VNull) => true
  | _ => false
  end.

(** Modelled from the spec: [getIsNullOrUndef] of [utils] is not among the
    sources; a Table field's list counts as missing when it is absent,
    undefined or null. *)
Definition getIsNullOrUndef (v : option FValue) : bool := nullish v.

(** [object[key] = value], where the value may be [undefined]. *)
Definition set_entry (key : string) (value : option FValue) (m : FieldValueMap)
  : FieldValueMap :=
  match value with
  | Some v => <[key := v]> m
  | None => delete key m
  end.

(** Binding a value of a statement: [undefined] is sent as NULL
    ([useNullAsDefault]), a list cannot be bound. *)
Definition bind_value (v : option FValue) : Result RawValue :=
  match v with
  | None => Ok VNull
  | Some (FRaw r) => Ok r
  | Some (FRows _) => Err DbError
  end.

Definition is_raw (v : FValue) : bool :=
  match v with FRaw _ => true | FRows _ => false end.

Definition raw_of (v : FValue) : option RawValue :=
  match v with FRaw r => Some r | FRows _ => None end.

(** Binding the values of an update: every entry at once. *)
Definition bind_map (m : FieldValueMap) : Result Row :=
  if bool_decide (map_Forall (λ _ v, is_raw v) m) then Ok (omap raw_of m)
  else Err DbError.

Definition operand_of (v : option FValue) : Operand :=
  match v with
  | Some (FRaw r) => OVal r
  | _ => OUndef
  end.

Definition to_fvm (r : Row) : FieldValueMap := FRaw <$> r.

(** [String(v)]. *)
Definition String_ (v : RawValue) : string :=
  match v with
  | VNull => "null"
  | VStr s => s
  | VNum z => pretty z
  | VBool b => if b then "true" else "false"
  end.

(** ** Query filters *)

(** A filter is a literal, or an array [[operator, value]] or
    [[operator, value, operator2, value2]]. *)
Inductive FilterValue :=
| FLit (v : RawValue)
| FArr (l : list RawValue).

(** The filter object, keys in insertion order ([for (field in filters)]). *)
Abbreviation QueryFilter := (list (string * FilterValue)).

Definition element (l : list RawValue) (i : nat) : Operand :=
  match l !! i with
  | Some v => OVal v
  | None => OUndef
  end.

(** The entries [[field, operator, comparisonValue]] pushed on
    [filtersArray] for one key of the filter object. *)
Definition filter_entries (field : string) (value : FilterValue)
  : Result (list (string * RawValue * Operand)) :=
  match value with
  | FLit v => Ok [(field, VStr "=", OVal v)]
  | FArr l =>
      match l !! 0%nat with
      | Some (VStr op0) =>
          let operator := toLowerCase op0 in
          let comparisonValue := element l 1 in
          let operator :=
            if bool_decide (operator = "includes") then "like" else operator in
          rbind
            (if bool_decide (operator = "like") then
               match comparisonValue with
               | OVal (VStr s) =>
                   if includes_char "%" s then Ok comparisonValue
                   else Ok (OVal (VStr ("%" +:+ s +:+ "%")))
               | _ => Err TypeError
               end
             else Ok comparisonValue)
            (λ comparisonValue,
               Ok ((field, VStr operator, comparisonValue) ::
                   if bool_decide (2 < length l)%nat then
                     (* multiple conditions *)
                     match l !! 2%nat with
                     | Some operator2 => [(field, operator2, element l 3)]
                     | None => []
                     end
                   else []))
      | _ => Err TypeError
      end
  end.

Fixpoint filtersArray_of (filters : QueryFilter)
  : Result (list (string * RawValue * Operand)) :=
  match filters with
  | [] => Ok []
  | (field, value) :: rest =>
      rbind (filter_entries field value) (λ es,
        rbind (filtersArray_of rest) (λ more, Ok (es ++ more)))
  end.

Definition where_of_entry (e : string * RawValue * Operand) : Where :=
  let '(field, operator, comparisonValue) := e in
  if bool_decide (operator = VStr "=") then Where2 field comparisonValue
  else Where3 field operator comparisonValue.

(** [#applyFiltersToBuilder]: the [where] calls made on the builder. *)
Definition applyFiltersToBuilder (filters : QueryFilter) : Result (list Where) :=
  rbind (filtersArray_of filters) (λ filtersArray,
    Ok (where_of_entry <$> filtersArray)).

Record GetQueryBuilderOptions := mkBuilderOptions {
  o_offset : option nat;
  o_limit : option nat;
  o_groupBy : option string;
  o_orderBy : option string;
  o_order : Order;
}.

Definition truthy_string (s : option string) : option string :=
  match s with
  | Some s => if bool_decide (s = "") then None else Some s
  | None => None
  end.

Definition truthy_number (n : option nat) : option nat :=
  match n with
  | Some O => None
  | _ => n
  end.

(** [#getQueryBuilder]. *)
Definition getQueryBuilder (schemaName : string) (fields : list string)
    (filters : QueryFilter) (options : GetQueryBuilderOptions) : Result Query :=
  rbind (applyFiltersToBuilder filters) (λ ws,
    Ok (mkQuery schemaName fields ws
          (truthy_string (o_groupBy options))
          ((λ c, (c, o_order options)) <$> truthy_string (o_orderBy options))
          (truthy_number (o_offset options))
          (truthy_number (o_limit options)))).

Record GetAllOptions := mkGetAllOptions {
  g_fields : option (list string);
  g_filters : option QueryFilter;
  g_offset : option nat;
  g_limit : option nat;
  g_groupBy : option string;
  g_orderBy : option string;
  g_order : option Order;
}.

Definition no_options : GetAllOptions :=
  mkGetAllOptions None None None None None None None.

(** [fields?: string | string[]] of [get]. *)
Inductive FieldsArg :=
| OneField (f : string)
| ManyFields (fs : list string).

(** A Table or Link field names its target ([TargetField.target]); read
    off a field without one it is [undefined], which as a property key or
    a table name is the text "undefined". *)
Definition target_name (f : Field) : string := default "undefined" (target f).

(** ** The class *)

Section DatabaseCore.

(** [sqliteTypeMap], [getRandomString], the clock and [SYSTEM] of
    [backend/helpers] and [utils] are not among the sources: they are
    parameters.  [randomString n] and [isoTime n] are what the [n]-th
    draw returns. *)
Variable typeMap : string → option string.
Variable randomString : nat → string.
Variable isoTime : nat → string.
Variable SYSTEM : string.

(** [this.schemaMap], as given to [setSchemaMap]. *)
Variable schemaMap : SchemaMap.

Definition tick : M nat := λ db,
  (Ok (ticks db), mkDatabase (tables db) (foreign_keys db) (transaction db) (S (ticks db))).

Definition getRandomString : M string := n ← tick; mret (randomString n).

Definition toISOString : M string := n ← tick; mret (isoTime n).

(** [this.schemaMap[schemaName]] used as a schema: reading a property of
    [undefined] is a TypeError. *)
Definition the_schema (schemaName : string) : M Schema :=
  match schema_lookup schemaMap schemaName with
  | Some s => mret s
  | None => throw TypeError
  end.

(** [#getTableFields]. *)
Definition getTableFields (schemaName : string) : M (list Field) :=
  schema ← the_schema schemaName;
  mret (filter (λ f, fieldtype f = FieldTypeEnum_Table) (fields schema)).

(** [getAll]. *)
Definition getAll (schemaName : string) (options : GetAllOptions) : M (list Row) :=
  match schema_lookup schemaMap schemaName with
  | None => throw NotFoundError
  | Some schema =>
      let hasCreated :=
        bool_decide (Exists (λ f, fieldname f = "created") (fields schema)) in
      let fields := default ["name"] (g_fields options) in
      let orderBy :=
        match g_orderBy options with
        | Some c => Some c
        | None => if hasCreated then Some "created" else None
        end in
      let order := default desc (g_order options) in
      q ← lift (getQueryBuilder schemaName fields (default [] (g_filters options))
                  (mkBuilderOptions (g_offset options) (g_limit options)
                     (g_groupBy options) orderBy order));
      run_select q
  end.

(** [#singleExists]. *)
Definition singleExists (singleSchemaName : string) : M bool :=
  count ← run_count "SingleValue" "parent"
             [Where2 "parent" (OVal (VStr singleSchemaName))];
  mret (bool_decide (0 < count)).

(** [exists]. *)
Definition exists_ (schemaName : string) (name : option RawValue) : M bool :=
  schema ← the_schema schemaName;
  if isSingle schema then singleExists schemaName
  else
    row ← try
      (let qb := from schemaName in
       let qb :=
         match name with
         | Some n =>
             mkQuery (q_table qb) (q_fields qb) [Where2 "name" (OVal n)]
               (q_groupBy qb) (q_orderBy qb) (q_offset qb) (q_limit qb)
         | None => qb
         end in
       run_select (mkQuery (q_table qb) (q_fields qb) (q_where qb)
                     (q_groupBy qb) (q_orderBy qb) (q_offset qb) (Some 1)))
      (λ err, match err with
              | NotFoundError => mret []
              | _ => throw err
              end);
    mret (bool_decide (0 < length row)).

(** [#getOne]. *)
Definition getOne (schemaName name : string) (fields : list string)
  : M (option Row) :=
  run_first (mkQuery schemaName fields [Where2 "name" (OVal (VStr name))]
               None None None None).

(** [#loadChildren]; the map it fills is returned. *)
Definition loadChildren (parentName : string) (fieldValueMap : FieldValueMap)
    (tableFields : list Field) : M FieldValueMap :=
  fold_each tableFields fieldValueMap (λ fieldValueMap field,
    rows ← getAll (target_name field)
              (mkGetAllOptions (Some ["*"]) (Some [("parent", FLit (VStr parentName))])
                 None None None (Some "idx") (Some asc));
    mret (<[fieldname field := FRows (to_fvm <$> rows)]> fieldValueMap)).

(** Modelled from the spec: [getValueMapFromList] of [utils] is not among
    the sources.  The rows of a parent are the singleton document: each
    row contributes its value under its (stringified) key, a later row
    replacing an earlier one. *)
Definition getValueMapFromList (list_ : list Row) (key valueKey : string)
  : FieldValueMap :=
  foldl (λ acc f, <[String_ (cell f key) := FRaw (cell f valueKey)]> acc) ∅ list_.

(** [#getSingle]. *)
Definition getSingle (schemaName : string) : M FieldValueMap :=
  values ← getAll "SingleValue"
              (mkGetAllOptions (Some ["fieldname"; "value"])
                 (Some [("parent", FLit (VStr schemaName))])
                 None None None (Some "fieldname") (Some asc));
  mret (getValueMapFromList values "fieldname" "value").

(** [get]; [name] defaults to the empty string. *)
Definition get (schemaName : string) (name : option string)
    (fieldsArg : option FieldsArg) : M FieldValueMap :=
  let name := default "" name in
  schema ← the_schema schemaName;
  if negb (isSingle schema) && bool_decide (name = "") then
    throw (ValueError "name is mandatory")
  else if isSingle schema then getSingle schemaName
  else
    let fields :=
      match fieldsArg with
      | Some (OneField f) => [f]
      | Some (ManyFields fs) => fs
      | None => fieldname <$> fields schema
      end in
    allTableFields ← getTableFields schemaName;
    let allTableFieldNames := fieldname <$> allTableFields in
    let tableFields :=
      filter (λ f, fieldname f ∈ fields) allTableFields in
    let nonTableFieldNames :=
      filter (λ f, f ∉ allTableFieldNames) fields in
    fieldValueMap ←
      (if bool_decide (nonTableFieldNames ≠ []) then
         row ← getOne schemaName name nonTableFieldNames;
         mret (from_option to_fvm ∅ row)
       else mret ∅);
    if bool_decide (tableFields ≠ []) then
      loadChildren name fieldValueMap tableFields
    else mret fieldValueMap.

(** *** Rows of a collection schema *)

Definition name_of (m : FieldValueMap) : RawValue :=
  match m !! "name" with
  | Some (FRaw v) => v
  | _ => VNull
  end.

(** [validMap] of [#insertOne]: one entry per field, a later field of the
    same name assigning over an earlier one. *)
Fixpoint validMap_of (fs : list Field) (fieldValueMap : FieldValueMap)
  : Result Row :=
  match fs with
  | [] => Ok ∅
  | f :: rest =>
      rbind (bind_value (fieldValueMap !! fieldname f)) (λ v,
        rbind (validMap_of rest fieldValueMap) (λ validMap,
          Ok (validMap ∪ {[fieldname f := v]})))
  end.

(** [#insertOne]; the map, with the name it was given, is returned. *)
Definition insertOne (schemaName : string) (fieldValueMap : FieldValueMap)
  : M FieldValueMap :=
  fieldValueMap ←
    (if negb (truthy (fieldValueMap !! "name")) then
       s ← getRandomString;
       mret (<["name" := FRaw (VStr s)]> fieldValueMap)
     else mret fieldValueMap);
  schema ← the_schema schemaName;
  (* Non Table Fields *)
  let fields := filter (λ f, fieldtype f ≠ FieldTypeEnum_Table) (fields schema) in
  validMap ← lift (validMap_of fields fieldValueMap);
  run_insert schemaName validMap;;
  mret fieldValueMap.

(** [#updateOne]. *)
Definition updateOne (schemaName : string) (fieldValueMap : FieldValueMap)
  : M unit :=
  let updateMap := delete "name" fieldValueMap in
  schema ← the_schema schemaName;
  let updateMap :=
    foldl (λ updateMap f,
             if bool_decide (fieldtype f ≠ FieldTypeEnum_Table) then updateMap
             else delete (fieldname f) updateMap)
          updateMap (fields schema) in
  if bool_decide (updateMap = ∅) then mret tt
  else
    values ← lift (bind_map updateMap);
    run_update schemaName [Where2 "name" (operand_of (fieldValueMap !! "name"))]
      values.

(** [#deleteOne]. *)
Definition deleteOne (schemaName name : string) : M unit :=
  run_delete schemaName [Where2 "name" (OVal (VStr name))].

(** [#deleteSingle]. *)
Definition deleteSingle (schemaName fieldname : string) : M unit :=
  run_delete "SingleValue"
    [Where2 "parent" (OVal (VStr schemaName));
     Where2 "fieldname" (OVal (VStr fieldname))].

(** [#deleteChildren]. *)
Definition deleteChildren (schemaName parentName : string) : M unit :=
  run_delete schemaName [Where2 "parent" (OVal (VStr parentName))].

(** [#runDeleteOtherChildren]. *)
Definition runDeleteOtherChildren (field : Field) (parentName : option FValue)
    (added : list RawValue) : M unit :=
  run_delete (target_name field)
    [Where2 "parent" (operand_of parentName);
     Where3 "name" (VStr "not in") (OList added)].

(** [#prepareChild]; the child as mutated is returned. *)
Definition prepareChild (parentSchemaName : string) (parentName : option FValue)
    (child : FieldValueMap) (field : Field) (idx : nat) : M FieldValueMap :=
  child ←
    (if negb (truthy (child !! "name")) && nullish (child !! "name") then
       s ← getRandomString;
       mret (<["name" := FRaw (VStr s)]> child)
     else mret child);
  let child := set_entry "parent" parentName child in
  let child := <["parentSchemaName" := FRaw (VStr parentSchemaName)]> child in
  let child := <["parentFieldname" := FRaw (VStr (fieldname field))]> child in
  mret (if nullish (child !! "idx")
        then <["idx" := FRaw (VNum (Z.of_nat idx))]> child
        else child).

(** The body of the inner loop of [#insertOrUpdateChildren]: the children
    done so far (as mutated) and [added] are threaded through. *)
Definition upsertChild (schemaName : string) (parentName : option FValue)
    (isUpdate : bool) (field : Field)
    (acc : list FieldValueMap * list RawValue) (child : FieldValueMap)
  : M (list FieldValueMap * list RawValue) :=
  let '(done_, added) := acc in
  child ← prepareChild schemaName parentName child field (length added);
  present ←
    (if isUpdate then
       match child !! "name" with
       | Some (FRaw n) => exists_ (target_name field) (Some n)
       | Some (FRows _) => throw DbError
       | None => exists_ (target_name field) None
       end
     else mret false);
  child ←
    (if present : bool then updateOne (target_name field) child;; mret child
     else insertOne (target_name field) child);
  mret (done_ ++ [child], added ++ [name_of child]).

(** [#insertOrUpdateChildren]; the map, holding the children as mutated,
    is returned. *)
Definition insertOrUpdateChildren (schemaName : string)
    (fieldValueMap : FieldValueMap) (isUpdate : bool) : M FieldValueMap :=
  let parentName := fieldValueMap !! "name" in
  tableFields ← getTableFields schemaName;
  fold_each tableFields fieldValueMap (λ fieldValueMap field,
    let tableFieldValue := fieldValueMap !! fieldname field in
    if getIsNullOrUndef tableFieldValue then mret fieldValueMap
    else
      match tableFieldValue with
      | Some (FRows children) =>
          '(done_, added) ←
            fold_each children ([], [])
              (upsertChild schemaName parentName isUpdate field);
          (if isUpdate then runDeleteOtherChildren field parentName added
           else mret tt);;
          mret (<[fieldname field := FRows done_]> fieldValueMap)
      | _ => throw TypeError
      end).

(** *** Singleton values *)

(** Modelled from the spec: [getDefaultMetaFieldValueMap] of
    [backend/helpers] is not among the sources; the meta values are
    [created], [modified], [createdBy] and [modifiedBy], the latter two
    the [SYSTEM] actor. *)
Definition getDefaultMetaFieldValueMap : M FieldValueMap :=
  now ← toISOString;
  mret (<["createdBy" := FRaw (VStr SYSTEM)]>
        (<["modifiedBy" := FRaw (VStr SYSTEM)]>
        (<["created" := FRaw (VStr now)]>
        (<["modified" := FRaw (VStr now)]> ∅)))).

(** [#insertSingleValue]. *)
Definition insertSingleValue (singleSchemaName fieldname : string) (value : FValue)
  : M unit :=
  updateMap ← getDefaultMetaFieldValueMap;
  s ← getRandomString;
  let fieldValueMap : FieldValueMap :=
    <["name" := FRaw (VStr s)]>
    (<["value" := value]>
    (<["fieldname" := FRaw (VStr fieldname)]>
    (<["parent" := FRaw (VStr singleSchemaName)]> updateMap))) in
  values ← lift (bind_map fieldValueMap);
  run_insert "SingleValue" values.

(** [#updateSingleValue]; the insert is started and not awaited. *)
Definition updateSingleValue (singleSchemaName fieldname : string) (value : FValue)
  : M unit :=
  let updateKey :=
    [Where2 "parent" (OVal (VStr singleSchemaName));
     Where2 "fieldname" (OVal (VStr fieldname))] in
  names ← run_select (mkQuery "SingleValue" ["name"] updateKey None None None None);
  if bool_decide (names = []) then
    detached (insertSingleValue singleSchemaName fieldname value)
  else
    now ← toISOString;
    values ← lift (bind_map
      (<["modified" := FRaw (VStr now)]>
       (<["modifiedBy" := FRaw (VStr SYSTEM)]>
       (<["value" := value]> ∅))));
    run_update "SingleValue" updateKey values.

(** [#updateSingleValues]. *)
Definition updateSingleValues (singleSchemaName : string)
    (fieldValueMap : FieldValueMap) : M unit :=
  schema ← the_schema singleSchemaName;
  for_each (fields schema) (λ field,
    match fieldValueMap !! fieldname field with
    | None => mret tt
    | Some value => updateSingleValue singleSchemaName (fieldname field) value
    end).

(** [#getNonExtantSingleValues]. *)
Definition getNonExtantSingleValues (singleSchemaName : string)
  : M (list (string * RawValue)) :=
  rows ← run_select (mkQuery "SingleValue" ["fieldname"]
            [Where2 "parent" (OVal (VStr singleSchemaName))] None None None None);
  let existingFields := (λ r, cell r "fieldname") <$> rows in
  schema ← the_schema singleSchemaName;
  mret (omap (λ f,
          match default_value f with
          | Some value =>
              if bool_decide (VStr (fieldname f) ∈ existingFields) then None
              else Some (fieldname f, value)
          | None => None
          end) (fields schema)).

(** [#updateNonExtantSingleValues]. *)
Definition updateNonExtantSingleValues (schemaName : string) : M unit :=
  singleValues ← getNonExtantSingleValues schemaName;
  for_each singleValues (λ sv,
    updateSingleValue schemaName (fst sv) (FRaw (snd sv))).

(** [#initializeSingles]. *)
Definition initializeSingles : M unit :=
  let singleSchemaNames :=
    filter (λ n, from_option isSingle false (schema_lookup schemaMap n))
      (fst <$> schemaMap) in
  for_each singleSchemaNames (λ schemaName,
    present ← singleExists schemaName;
    if present : bool then updateNonExtantSingleValues schemaName
    else
      schema ← the_schema schemaName;
      if bool_decide (Forall (λ f, default_value f = None) (fields schema))
      then mret tt
      else
        let defaultValues : FieldValueMap :=
          foldl (λ acc f,
                   match default_value f with
                   | Some d => <[fieldname f := FRaw d]> acc
                   | None => acc
                   end) ∅ (fields schema) in
        updateSingleValues schemaName defaultValues).

(** *** The public writes *)

(** [insert]. *)
Definition insert (schemaName : string) (fieldValueMap : FieldValueMap)
  : M FieldValueMap :=
  schema ← the_schema schemaName;
  (* insert parent *)
  fieldValueMap ←
    (if isSingle schema
     then updateSingleValues schemaName fieldValueMap;; mret fieldValueMap
     else insertOne schemaName fieldValueMap);
  (* insert children *)
  insertOrUpdateChildren schemaName fieldValueMap false.

(** [update]; the map as mutated is returned for reference. *)
Definition update (schemaName : string) (fieldValueMap : FieldValueMap)
  : M FieldValueMap :=
  schema ← the_schema schemaName;
  (* update parent *)
  (if isSingle schema then updateSingleValues schemaName fieldValueMap
   else updateOne schemaName fieldValueMap);;
  (* insert or update children *)
  insertOrUpdateChildren schemaName fieldValueMap true.

(** [delete]. *)
Definition delete_ (schemaName name : string) : M unit :=
  schema ← the_schema schemaName;
  if isSingle schema then deleteSingle schemaName name
  else
    deleteOne schemaName name;;
    (* delete children *)
    tableFields ← getTableFields schemaName;
    for_each tableFields (λ field, deleteChildren (target_name field) name).

(** *** Migration *)

Record ColumnDiff := mkColumnDiff {
  added : list Field;
  removed : list string;
}.

(** [#tableExists]. *)
Definition tableExists (schemaName : string) : M bool := hasTable schemaName.

(** [#getTableColumns]. *)
Definition getTableColumns (schemaName : string) : M (list string) :=
  info ← pragma_table_info schemaName;
  mret (col_name <$> info).

(** [#getForeignKeys]. *)
Definition getForeignKeys (schemaName : string) : M (list string) :=
  foreignKeyList ← pragma_foreign_key_list schemaName;
  mret (fk_from <$> foreignKeyList).

(** [#getColumnDiff]. *)
Definition getColumnDiff (schemaName : string) : M ColumnDiff :=
  tableColumns ← getTableColumns schemaName;
  schema ← the_schema schemaName;
  let validFields := fields schema in
  let added :=
    filter (λ field, (fieldname field ∉ tableColumns) ∧
                     is_Some (typeMap (fieldtype field))) validFields in
  let validFieldNames := fieldname <$> validFields in
  let removed := filter (λ column, column ∉ validFieldNames) tableColumns in
  mret (mkColumnDiff added removed).

(** [#getNewForeignKeys]. *)
Definition getNewForeignKeys (schemaName : string) : M (list Field) :=
  foreignKeys ← getForeignKeys schemaName;
  schema ← the_schema schemaName;
  mret (filter (λ field, fieldtype field = FieldTypeEnum_Link ∧
                         (fieldname field ∉ foreignKeys)) (fields schema)).

(** [#buildColumnForTable]: the column, and the foreign key, the field
    adds to the table builder. *)
Definition buildColumnForTable (field : Field)
  : Result (list Column * list ForeignKey) :=
  if bool_decide (fieldtype field = FieldTypeEnum_Table) then Ok ([], [])
  else
    match truthy_string (typeMap (fieldtype field)) with
    | None => Ok ([], [])
    | Some columnType =>
        let column :=
          mkColumn (fieldname field) columnType
            (bool_decide (fieldname field = "name"))   (* primary key *)
            (default_value field)                      (* default value *)
            (required field) in                        (* required *)
        (* link *)
        if bool_decide (fieldtype field = FieldTypeEnum_Link) then
          match truthy_string (target field) with
          | Some targetSchemaName =>
              match schema_lookup schemaMap targetSchemaName with
              | Some schema =>
                  Ok ([column], [mkForeignKey (fieldname field) (schema_name schema)])
              | None => Err TypeError
              end
          | None => Ok ([column], [])
          end
        else Ok ([column], [])
    end.

Fixpoint buildColumns (fs : list Field) : Result (list Column * list ForeignKey) :=
  match fs with
  | [] => Ok ([], [])
  | f :: rest =>
      rbind (buildColumnForTable f) (λ b,
        rbind (buildColumns rest) (λ bs,
          Ok (fst b ++ fst bs, snd b ++ snd bs)))
  end.

(** [#runCreateTableQuery]. *)
Definition runCreateTableQuery (schemaName : string) (fs : list Field) : M unit :=
  built ← lift (buildColumns fs);
  schema_createTable schemaName (fst built) (snd built).

(** [#createTable]; [tableName] defaults to the schema's name. *)
Definition createTable (schemaName : string) (tableName : option string) : M unit :=
  let tableName := default schemaName tableName in
  schema ← the_schema schemaName;
  runCreateTableQuery tableName (fields schema).

(** The copy loop of [prestigeTheTable], [i] ranging over [indices]. *)
Fixpoint copyBatches (tempName : string) (tableRows : list Row) (max : nat)
    (indices : list nat) : M unit :=
  match indices with
  | [] => mret tt
  | i :: rest =>
      let rowSlice := slice tableRows (i * max) (i + 1 * max) in
      if bool_decide (rowSlice = []) then mret tt
      else batchInsert tempName rowSlice;; copyBatches tempName tableRows max rest
  end.

(** [prestigeTheTable]. *)
Definition prestigeTheTable (schemaName : string) (tableRows : list Row) : M unit :=
  let max := 200 in
  (* Alter table hacx for sqlite in case of schema change. *)
  let tempName := "__" +:+ schemaName in
  dropTableIfExists tempName;;
  pragma_foreign_keys false;;
  createTable schemaName (Some tempName);;
  (if bool_decide (200 < length tableRows) then
     let fi := length tableRows / max in
     copyBatches tempName tableRows max (seq 0 (S fi))
   else batchInsert tempName tableRows);;
  dropTable schemaName;;
  renameTable tempName schemaName;;
  pragma_foreign_keys true.

(** [#removeColumns]; the rebuild is started and not awaited. *)
Definition removeColumns (schemaName : string) (targetColumns : list string)
  : M unit :=
  let fields :=
    (λ s, fieldname <$>
            filter (λ f, fieldtype f ≠ FieldTypeEnum_Table) (fields s))
    <$> schema_lookup schemaMap schemaName in
  tableRows ← getAll schemaName
    (mkGetAllOptions fields None None None None None None);
  detached (prestigeTheTable schemaName tableRows).

(** [#addForeignKeys]. *)
Definition addForeignKeys (schemaName : string) (newForeignKeys : list Field)
  : M unit :=
  pragma_foreign_keys false;;
  begin_transaction;;
  let tempName := "TEMP" +:+ schemaName in
  (* create temp table *)
  createTable schemaName (Some tempName);;
  copied ← try
    ((* copy from old to new table *)
     insert_select_all tempName schemaName;; mret true)
    (λ err,
       rollback;;
       pragma_foreign_keys true;;
       rows ← run_select (from schemaName);
       prestigeTheTable schemaName rows;;
       mret false);
  if copied : bool then
    (* drop old table *)
    dropTable schemaName;;
    (* rename new table *)
    renameTable tempName schemaName;;
    commit_transaction;;
    pragma_foreign_keys true
  else mret tt.

(** [#alterTable].  The rebuild that removes columns is started from
    inside the ALTER callback and not awaited; it runs once the ALTER
    statement has. *)
Definition alterTable (schemaName : string) : M unit :=
  (* get columns *)
  diff ← getColumnDiff schemaName;
  newForeignKeys ← getNewForeignKeys schemaName;
  built ← lift (buildColumns (added diff));
  schema_alterTable schemaName (fst built) (snd built);;
  (if bool_decide (removed diff ≠ []) then
     detached (removeColumns schemaName (removed diff))
   else mret tt);;
  if bool_decide (newForeignKeys ≠ []) then addForeignKeys schemaName newForeignKeys
  else mret tt.

(** [commit]: the statement is commented out in the source. *)
Definition commit : M unit := mret tt.

(** [migrate]. *)
Definition migrate : M unit :=
  for_each (fst <$> schemaMap) (λ schemaName,
    schema ← the_schema schemaName;
    if isSingle schema then mret tt
    else
      present ← tableExists schemaName;
      if present : bool then alterTable schemaName
      else createTable schemaName None);;
  commit;;
  initializeSingles.

(** *** Singleton values by field name, renaming, truncating *)

(** An argument of [getSingleValues]: a field name, or a field name with
    (optionally) its parent. *)
Inductive SingleValueKey :=
| ByFieldname (fieldname : string)
| ByKey (fieldname : string) (parent : option string).

Definition key_wheres (k : SingleValueKey) : list Where :=
  match k with
  | ByFieldname fieldname | ByKey fieldname None =>
      [Where2 "fieldname" (OVal (VStr fieldname))]
  | ByKey fieldname (Some parent) =>
      [Where2 "fieldname" (OVal (VStr fieldname));
       Where2 "parent" (OVal (VStr parent))]
  end.

(** [getSingleValues], called with at least one field name
    ([fieldnameList[0]] is what [where] is given). *)
Definition getSingleValues (first : SingleValueKey) (others : list SingleValueKey)
  : M (list Row) :=
  try (run_select_any "SingleValue" ["fieldname"; "value"; "parent"]
         (key_wheres first :: (key_wheres <$> others)))
      (λ err, match err with
              | NotFoundError => mret []
              | _ => throw err
              end).

(** [rename]. *)
Definition rename (schemaName oldName newName : string) : M unit :=
  run_update_key schemaName [Where2 "name" (OVal (VStr oldName))]
    {["name" := VStr newName]};;
  commit.


(** [connect] and [close]; the connection is the session part of the
    state. *)
Definition connect : M unit := pragma_foreign_keys true.

Definition close : M unit := mret tt.

(** [getCountryCode], run on a connection of its own to the file. *)
Definition getCountryCode : M RawValue :=
  let countryCode := VStr "in" in
  connect;;
  query ← try
    (run_select (mkQuery "SingleValue" ["*"]
                   [Where2 "fieldname" (OVal (VStr "countryCode"));
                    Where2 "parent" (OVal (VStr "SystemSettings"))]
                   None None None None))
    (λ _, (* Database not initialized and no countryCode passed *) mret []);
  let countryCode :=
    match query with
    | r :: _ => cell r "value"
    | [] => countryCode
    end in
  close;;
  mret countryCode.

End DatabaseCore.

(** ** Renderer and setup helpers *)

Module Renderer.

(** [s.endsWith(suffix)]. *)
Fixpoint endsWith (s suffix : string) : bool :=
  bool_decide (s = suffix) ||
  match s with
  | EmptyString => false
  | String _ rest => endsWith rest suffix
  end.

(** What the save dialog answers. *)
Record SaveResponse := mkSaveResponse {
  canceled : bool;
  filePath : option string;
}.

(** [getSavePath]; [dialog] is the main process answering
    [GET_SAVE_FILEPATH] for the default path it is given. *)
Definition getSavePath (dialog : string → SaveResponse) (name extention : string)
  : SaveResponse :=
  let response := dialog (name +:+ "." +:+ extention) in
  let canceled := canceled response in
  let filePath := filePath response in
  let filePath :=
    match truthy_string filePath with
    | Some path =>
        if negb (endsWith path extention) then Some (path +:+ "." +:+ extention)
        else filePath
    | None => filePath
    end in
  mkSaveResponse canceled filePath.

End Renderer.

Module Setup.

(** An entry of the [Files] list of the configuration. *)
Record ConfigFile := mkConfigFile {
  companyName : string;
  dbPath : string;
  openCount : option Z;
}.

(** The loop of [incrementOpenCount]: the count returned and the list as
    mutated. *)
Fixpoint countOpen (companyName dbPath : string) (files : list ConfigFile)
  : Z * list ConfigFile :=
  match files with
  | [] => (0%Z, [])
  | file :: rest =>
      if bool_decide (Setup.companyName file ≠ companyName ∨ Setup.dbPath file ≠ dbPath)
      then
        let '(openCount, rest) := countOpen companyName dbPath rest in
        (openCount, file :: rest)
      else
        let openCount := (default 0 (Setup.openCount file) + 1)%Z in
        (openCount,
         mkConfigFile (Setup.companyName file) (Setup.dbPath file) (Some openCount)
           :: rest)
  end.

(** [incrementOpenCount]; [companyName] is the value read from the
    accounting settings, [files] the list the configuration holds; the
    list written back is returned with the count. *)
Definition incrementOpenCount (companyName : string) (files : list ConfigFile)
    (dbPath : string) : Z * list ConfigFile :=
  countOpen companyName dbPath files.

End Setup.

(** ** Sample data

    A small schema map in the shape of the application's schemas: a
    collection with a child table, the child's schema, the shared
    [SingleValue] table and a singleton. *)

Module Sample.

Definition typeMap (fieldtype : string) : option string :=
  if bool_decide (fieldtype ∈ ["Data"; "Text"; "Link"; "Select"; "Currency"])
  then Some "text"
  else if bool_decide (fieldtype = "Int") then Some "integer"
  else None.

Definition randomString (n : nat) : string := "r" +:+ pretty n.
Definition isoTime (n : nat) : string := "t" +:+ pretty n.
Definition SYSTEM : string := "__SYSTEM__".

Definition data (fieldname : string) : Field :=
  mkField fieldname "Data" false None None.

Definition nameField : Field := mkField "name" "Data" true None None.

Definition childMeta : list Field :=
  [data "parent"; mkField "idx" "Int" false None None;
   data "parentSchemaName"; data "parentFieldname"].

Definition Invoice : Schema :=
  mkSchema "Invoice" false
    [nameField; data "party";
     mkField "items" "Table" false None (Some "InvoiceItem")].

Definition InvoiceItem : Schema :=
  mkSchema "InvoiceItem" false
    (nameField :: childMeta ++ [mkField "qty" "Int" false None None]).

Definition SingleValue : Schema :=
  mkSchema "SingleValue" false
    [nameField; data "parent"; data "fieldname"; data "value";
     data "created"; data "modified"; data "createdBy"; data "modifiedBy"].

Definition Settings : Schema :=
  mkSchema "Settings" true
    [data "companyName"; mkField "currency" "Data" false (Some (VStr "INR")) None].

Definition schemaMap : SchemaMap :=
  [("Invoice", Invoice); ("InvoiceItem", InvoiceItem);
   ("SingleValue", SingleValue); ("Settings", Settings)].

Definition empty : Database := mkDatabase ∅ true None 0.

(** The store after a first [migrate]. *)
Definition migrated : Database :=
  snd (migrate typeMap randomString isoTime SYSTEM schemaMap empty).

Definition str (s : string) : FValue := FRaw (VStr s).
Definition num (z : Z) : FValue := FRaw (VNum z).

Definition rowsOf (db : Database) (tableName : string) : list Row :=
  from_option t_rows [] (tables db !! tableName).

(** An [Invoice] table from before the field [legacy] was dropped from
    the schema, holding [n] rows named 0, 1, .. *)
Definition legacy : Column := mkColumn "legacy" "text" false None false.

Definition manyRows (n : nat) : list Row :=
  (λ i, <["name" := VStr (pretty i)]> (<["party" := VStr "p"]> ∅)) <$> seq 0 n.

Definition crowded (n : nat) : Database :=
  snd (for_each (manyRows n) (run_insert "Invoice")
         (snd (schema_alterTable "Invoice" [legacy] [] migrated))).

(** One invoice with two items, as [insert] stores it. *)
Definition invoice : FieldValueMap :=
  <["name" := str "INV-1"]> (<["party" := str "Bob"]>
  (<["items" := FRows [<["qty" := num 2]> ∅; <["qty" := num 5]> ∅]]> ∅)).

Definition oneInvoice : Database :=
  snd (insert randomString isoTime SYSTEM schemaMap "Invoice" invoice migrated).

End Sample.

(** * Properties *)

(** ** Reasoning about the monad *)

Lemma bind_run {A B} (c : M A) (f : A → M B) db :
  (c ≫= f) db =
  match c db with
  | (Ok a, db') => f a db'
  | (Err e, db') => (Err e, db')
  end.
Proof. reflexivity. Qed.

Lemma bind_Ok {A B} (c : M A) (f : A → M B) db b db' :
  (c ≫= f) db = (Ok b, db') →
  ∃ a db1, c db = (Ok a, db1) ∧ f a db1 = (Ok b, db').
Proof.
  rewrite bind_run. destruct (c db) as [[a|e] db1]; [eauto | discriminate].
Qed.

Lemma bind_step {A B} (c : M A) (f : A → M B) db a db1 :
  c db = (Ok a, db1) → (c ≫= f) db = f a db1.
Proof. intros H. by rewrite bind_run, H. Qed.

Lemma bind_fail {A B} (c : M A) (f : A → M B) db e db1 :
  c db = (Err e, db1) → (c ≫= f) db = (Err e, db1).
Proof. intros H. by rewrite bind_run, H. Qed.

Lemma ret_run {A} (a : A) db : (mret a : M A) db = (Ok a, db).
Proof. reflexivity. Qed.

Lemma lift_Ok {A} (r : Result A) db a db' :
  lift r db = (Ok a, db') → r = Ok a ∧ db' = db.
Proof. unfold lift. intros [= -> ->]. done. Qed.

Lemma rbind_Ok {A B} (r : Result A) (f : A → Result B) b :
  rbind r f = Ok b → ∃ a, r = Ok a ∧ f a = Ok b.
Proof. destruct r; simpl; [eauto | discriminate]. Qed.

(** Unfolds one monadic step of a hypothesis [H : (c ≫= f) db = (Ok _, _)]. *)
Ltac bind_inv H :=
  let a := fresh "a" in
  let db1 := fresh "db" in
  let H1 := fresh H in
  apply bind_Ok in H as (a & db1 & H1 & H).

(** ** [get]: the name is mandatory for a collection schema *)

Section Get.
Variable schemaMap : SchemaMap.

Lemma the_schema_run schemaName schema db :
  schema_lookup schemaMap schemaName = Some schema →
  the_schema schemaMap schemaName db = (Ok schema, db).
Proof. unfold the_schema. by intros ->. Qed.


End Get.


(** ** The filter compiler *)

Section Filters.

(** A literal compiles to one equality on its field. *)
Lemma filter_entries_literal field v :
  filter_entries field (FLit v) = Ok [(field, VStr "=", OVal v)].
Proof. reflexivity. Qed.

(** The conditions of a filter map are those of its keys, in order. *)
Lemma filtersArray_of_app fs1 fs2 :
  filtersArray_of (fs1 ++ fs2) =
  rbind (filtersArray_of fs1) (λ a,
    rbind (filtersArray_of fs2) (λ b, Ok (a ++ b))).
Proof.
  induction fs1 as [|[field value] fs1 IH]; simpl.
  - destruct (filtersArray_of fs2); reflexivity.
  - destruct (filter_entries field value) as [es|]; simpl; [|done].
    rewrite IH. destruct (filtersArray_of fs1) as [a|]; simpl; [|done].
    destruct (filtersArray_of fs2) as [b|]; simpl; [|done].
    by rewrite app_assoc.
Qed.

(** The compiled clauses are tested as a conjunction. *)
Lemma wheres_test_app ws1 ws2 r :
  wheres_test (ws1 ++ ws2) r = wheres_test ws1 r && wheres_test ws2 r.
Proof. unfold wheres_test. apply forallb_app. Qed.

Lemma wheres_test_all ws r :
  wheres_test ws r = true ↔ ∀ w, w ∈ ws → where_test w r = true.
Proof.
  unfold wheres_test. rewrite forallb_forall.
  split; intros H w Hw; apply H; by apply list_elem_of_In.
Qed.

(** [includes] in first position, any letter case, is rewritten to
    [like], and an operand without [%] is wrapped. *)
Lemma filter_entries_includes field op s :
  toLowerCase op = "includes" →
  includes_char "%" s = false →
  filter_entries field (FArr [VStr op; VStr s])
    = Ok [(field, VStr "like", OVal (VStr ("%" +:+ s +:+ "%")))].
Proof.
  intros Hop Hs. unfold filter_entries. simpl. rewrite Hop. simpl.
  rewrite Hs. reflexivity.
Qed.

End Filters.

(** C3.  The filter [{name: [">=", "a", "includes", "apple"]}] compiles to
    two clauses on [name]; the second one keeps the operator [includes]
    and the bare operand [apple]: neither the rewriting to [like] nor the
    wrapping in [%] is applied to the second operator of an entry (they
    are for the same filter with [includes] first), and the clause is one
    no table can be queried with. *)
Theorem second_operator_not_rewritten :
  applyFiltersToBuilder
    [("name", FArr [VStr ">="; VStr "a"; VStr "includes"; VStr "apple"])]
    = Ok [Where3 "name" (VStr ">=") (OVal (VStr "a"));
          Where3 "name" (VStr "includes") (OVal (VStr "apple"))] ∧
  applyFiltersToBuilder [("name", FArr [VStr "includes"; VStr "apple"])]
    = Ok [Where3 "name" (VStr "like") (OVal (VStr "%apple%"))] ∧
  (∀ t, where_compiles t (Where3 "name" (VStr "includes") (OVal (VStr "apple")))
        = false) ∧
  applyFiltersToBuilder
    [("name", FArr [VStr ">="; VStr "a"; VStr "like"; VStr "apple"])]
    = Ok [Where3 "name" (VStr ">=") (OVal (VStr "a"));
          Where3 "name" (VStr "like") (OVal (VStr "apple"))].
Proof.
  repeat split; try reflexivity.
  intros t. unfold where_compiles. simpl. by rewrite andb_false_r.
Qed.

(** ** The table rebuild *)

Section Rebuild.

Lemma then_ret (c : M unit) db : (c ;; mret tt) db = c db.
Proof.
  rewrite bind_run. destruct (c db) as [[[]|e] db']; reflexivity.
Qed.

Lemma slice_first {A} (l : list A) : slice l (0 * 200) (0 + 1 * 200) = take 200 l.
Proof. unfold slice. by rewrite drop_0. Qed.

Lemma slice_second {A} (l : list A) :
  slice l (1 * 200) (1 + 1 * 200) = take 1 (drop 200 l).
Proof.
  unfold slice. replace (1 + 1 * 200 - 1 * 200) with 1 by lia.
  by replace (1 * 200) with 200 by lia.
Qed.

Lemma slice_third {A} (l : list A) : slice l (2 * 200) (2 + 1 * 200) = [].
Proof. unfold slice. by replace (2 + 1 * 200 - 2 * 200) with 0 by lia. Qed.

(** Whatever the number of rows beyond 200, the copy loop inserts the
    first 200 rows, then the single row at index 200, and stops: the
    third slice, [slice(400, 202)], is empty. *)
Lemma copyBatches_copies_201 tempName (tableRows : list Row) db :
  200 < length tableRows →
  copyBatches tempName tableRows 200 (seq 0 (S (length tableRows / 200))) db
  = (batchInsert tempName (take 200 tableRows);;
     batchInsert tempName (take 1 (drop 200 tableRows))) db.
Proof.
  intros Hlen.
  assert (1 ≤ length tableRows / 200)%nat as Hfi
    by (apply Nat.div_le_lower_bound; lia).
  destruct (length tableRows / 200) as [|fi] eqn:Efi; [lia|].
  change (seq 0 (S (S fi))) with (0 :: 1 :: seq 2 fi).
  unfold copyBatches; fold copyBatches.
  rewrite slice_first.
  rewrite bool_decide_eq_false_2; last first.
  { intros E. apply (f_equal length) in E. rewrite length_take in E.
    cbn [length] in E. lia. }
  rewrite !bind_run. destruct (batchInsert tempName (take 200 tableRows) db)
    as [[[]|e] db1]; [|done].
  rewrite slice_second.
  rewrite bool_decide_eq_false_2; last first.
  { intros E. apply (f_equal length) in E.
    rewrite length_take, length_drop in E. cbn [length] in E. lia. }
  rewrite bind_run.
  destruct (batchInsert tempName (take 1 (drop 200 tableRows)) db1)
    as [[[]|e] db2]; [|done].
  destruct fi as [|fi]; [done|].
  change (seq 2 (S fi)) with (2 :: seq 3 fi).
  unfold copyBatches; fold copyBatches.
  by rewrite slice_third.
Qed.

End Rebuild.

(** C1.  An [Invoice] table with the stale column [legacy] and 202 rows
    is migrated: the column is dropped by the rebuild, and of the 202
    rows only the first 201 are in the rebuilt table (the row named 201
    is lost); with 201 rows all survive.  The batch bounds are
    [slice(i * max, i + 1 * max)] where [(i + 1) * max] is meant. *)
Theorem rebuild_keeps_201_rows :
  let run := migrate Sample.typeMap Sample.randomString Sample.isoTime
               Sample.SYSTEM Sample.schemaMap in
  let names db := (λ r, cell r "name") <$> Sample.rowsOf db "Invoice" in
  fst (run (Sample.crowded 202)) = Ok tt ∧
  length (names (Sample.crowded 202)) = 202 ∧
  (column_names <$> tables (snd (run (Sample.crowded 202))) !! "Invoice")
    = Some ["name"; "party"] ∧
  names (snd (run (Sample.crowded 202))) = take 201 (names (Sample.crowded 202)) ∧
  VStr "201" ∈ names (Sample.crowded 202) ∧
  (VStr "201" ∉ names (snd (run (Sample.crowded 202)))) ∧
  names (snd (run (Sample.crowded 201))) = names (Sample.crowded 201).
Proof.
  cbv zeta.
  split; [vm_compute; reflexivity|].
  split; [vm_compute; reflexivity|].
  split; [vm_compute; reflexivity|].
  split; [vm_compute; reflexivity|].
  split; [apply (bool_decide_unpack _); vm_compute; exact I|].
  split; [apply (bool_decide_unpack _); vm_compute; exact I|].
  vm_compute; reflexivity.
Qed.

(** ** Selecting *)

Lemma run_select_ok q db t :
  tables db !! q_table q = Some t →
  query_compiles t q = true →
  run_select q db = (Ok (select_rows t q), db).
Proof. intros Ht Hq. unfold run_select. by rewrite Ht, Hq. Qed.

Lemma run_select_missing q db :
  tables db !! q_table q = None →
  run_select q db = (Err NotFoundError, db).
Proof. intros Ht. unfold run_select. by rewrite Ht. Qed.

Lemma run_select_Ok_inv q db rows db' :
  run_select q db = (Ok rows, db') →
  db' = db ∧ ∃ t, tables db !! q_table q = Some t ∧
                  query_compiles t q = true ∧ rows = select_rows t q.
Proof.
  unfold run_select. destruct (tables db !! q_table q) as [t|]; [|done].
  destruct (query_compiles t q) eqn:Hq; [|done].
  intros [= <- <-]. eauto.
Qed.

Lemma sql_eq_text c s : sql_eq c (VStr s) = true ↔ c = VStr s.
Proof.
  destruct c as [|s'|z|b]; simpl; rewrite ?bool_decide_eq_true;
    split; try congruence; try done.
Qed.

Lemma where_test_eq_text column s r :
  where_test (Where2 column (OVal (VStr s))) r = true ↔ cell r column = VStr s.
Proof. unfold where_test. simpl. apply sql_eq_text. Qed.

Lemma has_column_true t c : has_column t c = true ↔ c ∈ column_names t.
Proof. unfold has_column. apply bool_decide_eq_true. Qed.

Lemma where_compiles_eq t column v :
  where_compiles t (Where2 column (OVal v)) = has_column t column.
Proof. unfold where_compiles. simpl. by rewrite andb_true_r. Qed.

Lemma filter_nonempty {A} (P : A → Prop) `{∀ x, Decision (P x)} (l : list A) :
  filter P l ≠ [] ↔ ∃ x, x ∈ l ∧ P x.
Proof.
  split.
  - destruct (filter P l) as [|x l'] eqn:E; [done|]. intros _.
    exists x. apply and_comm, (list_elem_of_filter P). rewrite E. left.
  - intros (x & Hx & HP) E.
    assert (x ∈ filter P l) as Hin by (by apply list_elem_of_filter).
    rewrite E in Hin. by apply not_elem_of_nil in Hin.
Qed.

(** ** [exists] *)

Section Exists.
Variable schemaMap : SchemaMap.

(** The claim as worded: [exists] answers true exactly when a name is
    given and a row has it as its primary key. *)
Definition exists_as_stated (schemaName : string) (name : option RawValue)
    (db : Database) : Prop :=
  fst (exists_ schemaMap schemaName name db) = Ok true ↔
  ∃ n t r, name = Some n ∧ tables db !! schemaName = Some t ∧
           r ∈ t_rows t ∧ cell r "name" = n.

Lemma positive_length {A} (l : list A) :
  bool_decide (0 < length l) = true ↔ l ≠ [].
Proof.
  rewrite bool_decide_eq_true. destruct l; simpl; split; try done; lia.
Qed.

Lemma fmap_nonempty {A B} (f : A → B) (l : list A) : f <$> l ≠ [] ↔ l ≠ [].
Proof. destruct l; simpl; split; congruence. Qed.

Lemma take_one_nonempty {A} (l : list A) : take 1 l ≠ [] ↔ l ≠ [].
Proof. destruct l; simpl; split; congruence. Qed.

Lemma wheres_test_single w r : wheres_test [w] r = where_test w r.
Proof. unfold wheres_test. simpl. apply andb_true_r. Qed.

Lemma singleExists_run db t singleSchemaName :
  tables db !! "SingleValue" = Some t →
  has_column t "parent" = true →
  ∃ b, singleExists singleSchemaName db = (Ok b, db) ∧
       (b = true ↔ ∃ r, r ∈ t_rows t ∧ cell r "parent" = VStr singleSchemaName).
Proof.
  intros Ht Hc. unfold singleExists, run_count.
  eexists. split.
  - rewrite !bind_run. erewrite run_select_ok; [| exact Ht |].
    + reflexivity.
    + unfold query_compiles. simpl. unfold field_selectable.
      rewrite where_compiles_eq, Hc. by rewrite orb_true_r.
  - unfold select_rows. simpl.
    rewrite bool_decide_eq_true.
    set (matching := filter _ (t_rows t)).
    assert (∀ r, r ∈ matching ↔
                 r ∈ t_rows t ∧ cell r "parent" = VStr singleSchemaName) as Hm.
    { intros r. unfold matching. rewrite list_elem_of_filter.
      rewrite andb_true_r, Is_true_true, where_test_eq_text. tauto. }
    assert (∀ l : list Row,
      (∀ r, r ∈ l → cell r "parent" = VStr singleSchemaName) →
      length (filter (λ r, cell r "parent" ≠ VNull) (project t ["parent"] <$> l))
      = length l) as Hkeep.
    { induction l as [|r l IH]; intros Hl; [done|].
      rewrite fmap_cons, filter_cons_True.
      - simpl. f_equal. apply IH. intros r' Hr'. apply Hl. by right.
      - unfold project, cell. simpl. rewrite lookup_insert_eq. simpl.
        fold (cell r "parent"). rewrite (Hl r); [done | left]. }
    rewrite Hkeep by (intros r Hr; by apply Hm in Hr as [_ Hr]).
    split.
    + intros Hpos. destruct matching as [|r l] eqn:E; [simpl in Hpos; lia|].
      exists r. apply Hm. left.
    + intros (r & Hr). apply Hm in Hr.
      destruct matching; [by apply not_elem_of_nil in Hr | simpl; lia].
Qed.

Lemma exists_collection_run schemaName schema name db t :
  schema_lookup schemaMap schemaName = Some schema →
  isSingle schema = false →
  tables db !! schemaName = Some t →
  forallb (where_compiles t)
    (match name with Some n => [Where2 "name" (OVal n)] | None => [] end) = true →
  exists_ schemaMap schemaName name db =
  (Ok (bool_decide (0 < length (filter
         (λ r, wheres_test
                 (match name with Some n => [Where2 "name" (OVal n)] | None => [] end) r)
         (t_rows t)))), db).
Proof.
  intros Hs Hsingle Ht Hc. unfold exists_.
  rewrite (bind_step _ _ _ _ _ (the_schema_run _ _ _ db Hs)), Hsingle.
  rewrite bind_run. unfold try.
  erewrite run_select_ok; [| destruct name; exact Ht |].
  - rewrite ret_run. do 2 f_equal. apply bool_decide_ext.
    unfold select_rows. destruct name; simpl;
      rewrite length_fmap, length_take; 
      match goal with |- context [filter ?P ?l] => destruct (filter P l) end;
      simpl; lia.
  - unfold query_compiles. destruct name; simpl in *; by rewrite ?Hc.
Qed.

(** C2, as the code has it.  On a collection schema [exists] with a name
    answers whether a row of the table has that primary key; with the
    name omitted it does not fail: it answers whether the table holds any
    row at all; a table that does not exist gives false.  On a singleton
    schema it answers whether some [SingleValue] row has the schema's
    name as parent. *)
Theorem exists_answers schemaName schema db :
  schema_lookup schemaMap schemaName = Some schema →
  (isSingle schema = false →
     (∀ t, tables db !! schemaName = Some t →
        (∀ n, has_column t "name" = true →
           ∃ b, exists_ schemaMap schemaName (Some (VStr n)) db = (Ok b, db) ∧
                (b = true ↔ ∃ r, r ∈ t_rows t ∧ cell r "name" = VStr n)) ∧
        (∃ b, exists_ schemaMap schemaName None db = (Ok b, db) ∧
              (b = true ↔ t_rows t ≠ []))) ∧
     (tables db !! schemaName = None →
        ∀ name, exists_ schemaMap schemaName name db = (Ok false, db))) ∧
  (isSingle schema = true →
     ∀ t name, tables db !! "SingleValue" = Some t →
       has_column t "parent" = true →
       ∃ b, exists_ schemaMap schemaName name db = (Ok b, db) ∧
            (b = true ↔ ∃ r, r ∈ t_rows t ∧ cell r "parent" = VStr schemaName)).
Proof.
  intros Hs. split; intros Hsingle.
  - split.
    + intros t Ht. split.
      * intros n Hc. eexists. split.
        { apply (exists_collection_run schemaName schema (Some (VStr n)) db t); try done.
          simpl. by rewrite where_compiles_eq, Hc. }
        rewrite positive_length, filter_nonempty.
        split; intros (r & Hr & Hp); exists r; split; try done.
        { by rewrite wheres_test_single, Is_true_true, where_test_eq_text in Hp. }
        { by rewrite wheres_test_single, Is_true_true, where_test_eq_text. }
      * eexists. split.
        { by apply (exists_collection_run schemaName schema None db t). }
        rewrite positive_length, filter_nonempty.
        split.
        { intros (r & Hr & _) E. rewrite E in Hr. by apply not_elem_of_nil in Hr. }
        { destruct (t_rows t) as [|r l]; [done|]. intros _. exists r.
          split; [left | done]. }
    + intros Ht name. unfold exists_.
      rewrite (bind_step _ _ _ _ _ (the_schema_run _ _ _ db Hs)), Hsingle.
      rewrite bind_run. unfold try.
      rewrite run_select_missing by (destruct name; exact Ht).
      reflexivity.
  - intros t name Ht Hc. unfold exists_.
    rewrite (bind_step _ _ _ _ _ (the_schema_run _ _ _ db Hs)), Hsingle.
    by apply singleExists_run.
Qed.

End Exists.

Lemma exists_answers_witness :
  (∃ b, exists_ Sample.schemaMap "Invoice" (Some (VStr "INV-1")) Sample.oneInvoice
          = (Ok b, Sample.oneInvoice) ∧
        (b = true ↔ ∃ r, r ∈ Sample.rowsOf Sample.oneInvoice "Invoice" ∧
                         cell r "name" = VStr "INV-1")) ∧
  (∃ b, exists_ Sample.schemaMap "Settings" None Sample.migrated
          = (Ok b, Sample.migrated) ∧
        (b = true ↔ ∃ r, r ∈ Sample.rowsOf Sample.migrated "SingleValue" ∧
                         cell r "parent" = VStr "Settings")).
Proof.
  split.
  - destruct (tables Sample.oneInvoice !! "Invoice") as [t|] eqn:Ht;
      [| vm_compute in Ht; discriminate Ht].
    unfold Sample.rowsOf. rewrite Ht. simpl.
    apply (proj1 (proj1 (proj1 (exists_answers Sample.schemaMap "Invoice"
             Sample.Invoice Sample.oneInvoice eq_refl) eq_refl) t Ht)).
    vm_compute in Ht. injection Ht as <-. vm_compute. reflexivity.
  - destruct (tables Sample.migrated !! "SingleValue") as [t|] eqn:Ht;
      [| vm_compute in Ht; discriminate Ht].
    unfold Sample.rowsOf. rewrite Ht. simpl.
    apply (proj2 (exists_answers Sample.schemaMap "Settings"
             Sample.Settings Sample.migrated eq_refl) eq_refl t None Ht).
    vm_compute in Ht. injection Ht as <-. vm_compute. reflexivity.
Defined.

(** C2 as worded fails: with the name omitted [exists] does answer, and
    answers true on a table that holds a row; nothing requires the name. *)
Lemma exists_without_name_counterexample :
  ¬ exists_as_stated Sample.schemaMap "Invoice" None Sample.oneInvoice.
Proof.
  unfold exists_as_stated. intros [H _].
  destruct H as (n & t & r & Hn & _); [vm_compute; reflexivity | discriminate Hn].
Qed.
(** ** Deleting *)

Definition with_tables (db : Database) (ts : gmap string Table) : Database :=
  mkDatabase ts (foreign_keys db) (transaction db) (ticks db).

Lemma filter_all {A} (P : A → Prop) `{∀ x, Decision (P x)} (l : list A) :
  (∀ x, x ∈ l → P x) → filter P l = l.
Proof.
  induction l as [|x l IH]; intros Hl; [done|].
  rewrite filter_cons_True by (apply Hl; left).
  f_equal. apply IH. intros y Hy. apply Hl. by right.
Qed.

Lemma with_rows_id t : with_rows t (t_rows t) = t.
Proof. by destruct t. Qed.


Lemma run_delete_ok tableName ws db t :
  tables db !! tableName = Some t →
  forallb (where_compiles t) ws = true →
  run_delete tableName ws db =
  (Ok tt, with_tables db
     (<[tableName := with_rows t (filter (λ r, ¬ wheres_test ws r) (t_rows t))]>
        (tables db))).
Proof. intros Ht Hc. unfold run_delete. by rewrite Ht, Hc. Qed.


Section Delete.
Variable schemaMap : SchemaMap.


(** The rows [delete(schemaName, name)] is to remove from table [T]. *)
Definition deleted_by (targets : list string) (schemaName name : string)
    (T : string) (r : Row) : Prop :=
  (T = schemaName ∧ cell r "name" = VStr name) ∨
  (T ∈ targets ∧ cell r "parent" = VStr name).

Global Instance deleted_by_dec targets schemaName name T r :
  Decision (deleted_by targets schemaName name T r).
Proof. unfold deleted_by. apply _. Defined.


Lemma getTableFields_run schemaName schema db :
  schema_lookup schemaMap schemaName = Some schema →
  getTableFields schemaMap schemaName db =
  (Ok (filter (λ f, fieldtype f = FieldTypeEnum_Table) (fields schema)), db).
Proof.
  intros Hs. unfold getTableFields.
  by rewrite (bind_step _ _ _ _ _ (the_schema_run _ _ _ db Hs)).
Qed.



End Delete.

(** ** Inserting and updating rows *)


Lemma run_insert_Ok_inv tableName values db u db' :
  run_insert tableName values db = (Ok u, db') →
  ∃ t, tables db !! tableName = Some t ∧
       keys_are_columns t values = true ∧
       notnull_ok t (new_row t values) = true ∧
       primary_free t (new_row t values) = true ∧
       db' = with_tables db
         (<[tableName := with_rows t (t_rows t ++ [new_row t values])]> (tables db)).
Proof.
  unfold run_insert. destruct (tables db !! tableName) as [t|]; [|done].
  destruct (keys_are_columns t values) eqn:Hk; [|done].
  destruct (notnull_ok t (new_row t values)) eqn:Hn; [|done].
  destruct (primary_free t (new_row t values)) eqn:Hp; [|done].
  simpl. intros [= <- <-]. exists t. eauto 10.
Qed.

Definition updated_rows (ws : list Where) (values : Row) (rows : list Row)
  : list Row :=
  (λ r, if wheres_test ws r then values ∪ r else r) <$> rows.


Lemma run_update_Ok_inv tableName ws values db u db' :
  run_update tableName ws values db = (Ok u, db') →
  (values = ∅ ∧ db' = db) ∨
  ∃ t, tables db !! tableName = Some t ∧
       forallb (where_compiles t) ws = true ∧
       keys_are_columns t values = true ∧
       db' = with_tables db
         (<[tableName := with_rows t (updated_rows ws values (t_rows t))]> (tables db)).
Proof.
  unfold run_update. case_bool_decide as Hv.
  - intros [= <- <-]. by left.
  - destruct (tables db !! tableName) as [t|]; [|done].
    destruct (forallb (where_compiles t) ws) eqn:Hc; [|done].
    destruct (keys_are_columns t values) eqn:Hk; [|done].
    destruct (negb _ || _); [|done].
    simpl. intros [= <- <-]. right. exists t. eauto 10.
Qed.

Lemma keys_are_columns_spec t (values : Row) :
  keys_are_columns t values = true ↔
  ∀ k v, values !! k = Some v → k ∈ column_names t.
Proof. unfold keys_are_columns. rewrite bool_decide_eq_true. reflexivity. Qed.

Lemma lookup_new_row t (values : Row) c :
  c ∈ column_names t →
  is_Some (new_row t values !! c).
Proof.
  unfold new_row, column_names. induction (t_columns t) as [|x cols IH]; simpl.
  - intros H. by apply not_elem_of_nil in H.
  - intros H. destruct (decide (col_name x = c)) as [<-|Hne].
    + rewrite lookup_insert_eq. eauto.
    + rewrite lookup_insert_ne by done. apply IH.
      apply elem_of_cons in H as [?|?]; [congruence | done].
Qed.

Lemma cell_new_row_given t (values : Row) c v :
  values !! c = Some v →
  c ∈ column_names t →
  cell (new_row t values) c = v.
Proof.
  intros Hv. unfold cell, new_row, column_names.
  induction (t_columns t) as [|x cols IH]; simpl.
  - intros H. by apply not_elem_of_nil in H.
  - intros H. destruct (decide (col_name x = c)) as [<-|Hne].
    + rewrite lookup_insert_eq. simpl. by rewrite Hv.
    + rewrite lookup_insert_ne by done. apply IH.
      apply elem_of_cons in H as [?|?]; [congruence | done].
Qed.

Lemma cell_union_given (values r : Row) c v :
  values !! c = Some v → cell (values ∪ r) c = v.
Proof. intros Hv. unfold cell. by rewrite (lookup_union_Some_l _ _ _ _ Hv). Qed.

Lemma cell_union_other (values r : Row) c :
  values !! c = None → cell (values ∪ r) c = cell r c.
Proof. intros Hv. unfold cell. by rewrite lookup_union_r. Qed.

(** ** Singleton documents *)

(** The rows of the shared table that belong to one singleton. *)
Definition single_rows (singleSchemaName : string) (t : Table) : list Row :=
  filter (λ r, cell r "parent" = VStr singleSchemaName) (t_rows t).

Definition entry_of (r : Row) : string * FValue :=
  (String_ (cell r "fieldname"), FRaw (cell r "value")).

(** The document the rows of a singleton stand for. *)
Definition single_doc (singleSchemaName : string) (t : Table) : FieldValueMap :=
  list_to_map (entry_of <$> single_rows singleSchemaName t).

(** The data model's invariant: one value row per (parent, fieldname), the
    field names being text. *)
Definition one_row_per_field (singleSchemaName : string) (t : Table) : Prop :=
  NoDup (fst <$> (entry_of <$> single_rows singleSchemaName t)) ∧
  Forall (λ r, is_Some (text_of (cell r "fieldname")))
    (single_rows singleSchemaName t).

Definition single_value_columns : list string :=
  ["name"; "parent"; "fieldname"; "value";
   "created"; "modified"; "createdBy"; "modifiedBy"].

(** The shape of the [SingleValue] table: the columns of a value row, the
    name as only primary key, and no NOT NULL column other than those. *)
Definition single_value_table (t : Table) : Prop :=
  (∀ c, c ∈ single_value_columns → c ∈ column_names t) ∧
  (∀ c, c ∈ t_columns t → col_primary c = true → col_name c = "name") ∧
  (∀ c, c ∈ t_columns t → col_notnull c = true → col_name c ∈ single_value_columns).


Lemma foldl_insert_union (l : list (string * FValue)) (acc : FieldValueMap) :
  foldl (λ acc p, <[p.1 := p.2]> acc) acc l = list_to_map (reverse l) ∪ acc.
Proof.
  revert acc. induction l as [|[k v] l IH]; intros acc; simpl.
  - by rewrite (left_id_L ∅ (∪)).
  - rewrite IH, reverse_cons, list_to_map_app. simpl.
    rewrite insert_empty, <- (assoc_L (∪)).
    by rewrite <- insert_union_singleton_l.
Qed.

Lemma getValueMapFromList_entries (rows : list Row) :
  NoDup (fst <$> (entry_of <$> rows)) →
  getValueMapFromList rows "fieldname" "value" = list_to_map (entry_of <$> rows).
Proof.
  intros Hnd. unfold getValueMapFromList.
  transitivity (foldl (λ acc p, <[p.1 := p.2]> acc) (∅ : FieldValueMap)
                  (entry_of <$> rows)).
  { generalize (∅ : FieldValueMap). induction rows as [|r rows IH]; intros acc;
      [done|]. simpl. apply IH. by apply NoDup_cons in Hnd as [_ ?]. }
  rewrite foldl_insert_union, (right_id_L ∅ (∪)).
  apply list_to_map_proper; [| apply reverse_Permutation].
  by rewrite reverse_Permutation.
Qed.

Lemma lookup_list_to_map_fn {A} (g : string → A) (l : list string) c :
  c ∈ l → (list_to_map ((λ c, (c, g c)) <$> l) : gmap string A) !! c = Some (g c).
Proof.
  induction l as [|x l IH]; intros Hc; [by apply not_elem_of_nil in Hc|].
  simpl. destruct (decide (x = c)) as [->|Hne].
  - by rewrite lookup_insert_eq.
  - rewrite lookup_insert_ne by done. apply IH.
    apply elem_of_cons in Hc as [?|?]; [congruence | done].
Qed.

Lemma lookup_list_to_map_fn_None {A} (g : string → A) (l : list string) c :
  c ∉ l → (list_to_map ((λ c, (c, g c)) <$> l) : gmap string A) !! c = None.
Proof.
  intros Hc. apply not_elem_of_list_to_map_1. intros H. apply Hc.
  apply list_elem_of_fmap in H as ([k v] & Hk & H).
  apply list_elem_of_fmap in H as (c' & Hc' & H).
  simpl in Hk. congruence.
Qed.

Definition selected (t : Table) (fs : list string) : list string :=
  fs ≫= λ f, if bool_decide (f = "*") then column_names t else [f].

Lemma cell_project t fs r c :
  c ∈ selected t fs → cell (project t fs r) c = cell r c.
Proof.
  intros Hc. unfold cell at 1, project. fold (selected t fs).
  by rewrite lookup_list_to_map_fn.
Qed.

Lemma cell_project_None t fs r c :
  c ∉ selected t fs → cell (project t fs r) c = VNull.
Proof.
  intros Hc. unfold cell at 1, project. fold (selected t fs).
  by rewrite lookup_list_to_map_fn_None.
Qed.

Section GetAll.
Variable schemaMap : SchemaMap.

Lemma getAll_filtered tableName schema fs column v orderColumn o db :
  schema_lookup schemaMap tableName = Some schema →
  orderColumn ≠ "" →
  getAll schemaMap tableName
    (mkGetAllOptions (Some fs) (Some [(column, FLit v)]) None None None
       (Some orderColumn) (Some o)) db
  = run_select (mkQuery tableName fs [Where2 column (OVal v)] None
                  (Some (orderColumn, o)) None None) db.
Proof.
  intros Hs Ho. unfold getAll. rewrite Hs. cbn.
  unfold truthy_string.
  rewrite (bool_decide_eq_true_2 (VStr "=" = VStr "=")) by done.
  by rewrite bool_decide_eq_false_2.
Qed.

End GetAll.

Lemma filter_wheres_parent (s : string) (rows : list Row) column :
  filter (λ r, wheres_test [Where2 column (OVal (VStr s))] r) rows
  = filter (λ r, cell r column = VStr s) rows.
Proof.
  apply list_filter_iff. intros r.
  by rewrite wheres_test_single, Is_true_true, where_test_eq_text.
Qed.

Section Singles.
Variable randomString isoTime : nat → string.
Variable SYSTEM : string.
Variable schemaMap : SchemaMap.

Lemma getSingle_run singleSchemaName schema db t :
  schema_lookup schemaMap "SingleValue" = Some schema →
  tables db !! "SingleValue" = Some t →
  single_value_table t →
  one_row_per_field singleSchemaName t →
  getSingle schemaMap singleSchemaName db = (Ok (single_doc singleSchemaName t), db).
Proof.
  intros Hs Ht [Hcols _] [Hnd Htext]. unfold getSingle.
  rewrite bind_run, (getAll_filtered _ _ schema) by done.
  erewrite run_select_ok; [| exact Ht |]; last first.
  { unfold query_compiles. cbn.
    unfold field_selectable. rewrite !where_compiles_eq.
    rewrite !(proj2 (has_column_true _ _)); [done | apply Hcols ..];
      unfold single_value_columns; set_solver. }
  rewrite ret_run. f_equal. f_equal.
  unfold select_rows. cbn [q_limit q_offset q_orderBy q_groupBy q_where q_fields
    apply_limit apply_offset apply_order apply_group].
  rewrite filter_wheres_parent. fold (single_rows singleSchemaName t).
  set (sorted := merge_sort _ _).
  assert (sorted ≡ₚ single_rows singleSchemaName t) as Hperm
    by apply merge_sort_Permutation.
  assert (entry_of <$> (project t ["fieldname"; "value"] <$> sorted)
          = entry_of <$> sorted) as Hentries.
  { rewrite <- list_fmap_compose. apply list_fmap_ext. intros _ r _.
    unfold entry_of, compose.
    rewrite !cell_project; [done | cbn; set_solver ..]. }
  rewrite getValueMapFromList_entries; rewrite Hentries.
  - unfold single_doc. apply list_to_map_proper; [| by rewrite Hperm].
    by rewrite Hperm.
  - by rewrite Hperm.
Qed.





Lemma updateKey_test (parent fieldname : string) r :
  wheres_test [Where2 "parent" (OVal (VStr parent));
               Where2 "fieldname" (OVal (VStr fieldname))] r = true ↔
  cell r "parent" = VStr parent ∧ cell r "fieldname" = VStr fieldname.
Proof.
  unfold wheres_test. cbn [forallb]. rewrite andb_true_r, andb_true_iff.
  by rewrite !where_test_eq_text.
Qed.











Hypothesis randomString_inj : ∀ i j, randomString i = randomString j → i = j.

Definition touched_row (singleSchemaName fieldname : string) (r : Row) : Prop :=
  cell r "parent" = VStr singleSchemaName ∧ cell r "fieldname" = VStr fieldname.


(** Within the rows of a well-kept singleton, the row of a field is the
    one whose entry has the field's name as key. *)
Lemma touched_iff_key singleSchemaName fieldname t r :
  one_row_per_field singleSchemaName t →
  r ∈ single_rows singleSchemaName t →
  touched_row singleSchemaName fieldname r ↔ fst (entry_of r) = fieldname.
Proof.
  intros [_ Htext] Hr. unfold touched_row, entry_of. simpl.
  pose proof (proj1 (Forall_forall _ _) Htext r Hr) as [s Hs].
  apply list_elem_of_filter in Hr as [Hp _].
  destruct (cell r "fieldname"); simpl in *; try done.
  injection Hs as ->. split; [by intros [_ [= ->]] | by intros ->].
Qed.








Lemma single_value_table_columns t t' :
  t_columns t' = t_columns t → single_value_table t → single_value_table t'.
Proof. unfold single_value_table, column_names. by intros ->. Qed.









Lemma get_singleton singleSchemaName schema name fieldsArg db :
  schema_lookup schemaMap singleSchemaName = Some schema →
  isSingle schema = true →
  get schemaMap singleSchemaName name fieldsArg db
  = getSingle schemaMap singleSchemaName db.
Proof.
  intros Hs Hsingle. unfold get.
  by rewrite (bind_step _ _ _ _ _ (the_schema_run _ _ _ db Hs)), Hsingle.
Qed.



End Singles.


(** ** What the row operations touch *)

Lemma for_each_invariant {A} (I : Database → Prop) (l : list A) (body : A → M unit) :
  (∀ x db u db', x ∈ l → I db → body x db = (Ok u, db') → I db') →
  ∀ db u db', I db → for_each l body db = (Ok u, db') → I db'.
Proof.
  induction l as [|x l IH]; intros Hbody db u db' HI Hrun.
  - by injection Hrun as _ <-.
  - cbn [for_each] in Hrun. bind_inv Hrun.
    eapply IH; [| | exact Hrun].
    + intros y ? ? ? Hy. apply Hbody. by right.
    + eapply Hbody; [left | exact HI | exact Hrun0].
Qed.

Lemma fold_each_invariant {A S} (I : S → Database → Prop) (l : list A)
    (body : S → A → M S) :
  (∀ x acc db acc' db', x ∈ l → I acc db → body acc x db = (Ok acc', db') →
                        I acc' db') →
  ∀ acc db acc' db', I acc db → fold_each l acc body db = (Ok acc', db') →
                     I acc' db'.
Proof.
  induction l as [|x l IH]; intros Hbody acc db acc' db' HI Hrun.
  - by injection Hrun as <- <-.
  - cbn [fold_each] in Hrun. bind_inv Hrun.
    eapply IH; [| | exact Hrun].
    + intros y ? ? ? ? Hy. apply Hbody. by right.
    + eapply Hbody; [left | exact HI | exact Hrun0].
Qed.

Lemma run_select_state q db r db' : run_select q db = (r, db') → db' = db.
Proof.
  unfold run_select. destruct (tables db !! q_table q) as [t|];
    [destruct (query_compiles t q)|]; by intros [= _ <-].
Qed.

Lemma the_schema_Ok (schemaMap : SchemaMap) schemaName db schema db' :
  the_schema schemaMap schemaName db = (Ok schema, db') →
  schema_lookup schemaMap schemaName = Some schema ∧ db' = db.
Proof.
  unfold the_schema. destruct (schema_lookup schemaMap schemaName); [|done].
  by intros [= -> ->].
Qed.

Lemma run_insert_other tableName values db u db' T :
  run_insert tableName values db = (Ok u, db') → T ≠ tableName →
  tables db' !! T = tables db !! T.
Proof.
  intros H HT. apply run_insert_Ok_inv in H as (t & _ & _ & _ & _ & ->).
  cbn. by rewrite lookup_insert_ne.
Qed.

Lemma run_update_other tableName ws values db u db' T :
  run_update tableName ws values db = (Ok u, db') → T ≠ tableName →
  tables db' !! T = tables db !! T.
Proof.
  intros H HT. apply run_update_Ok_inv in H as [[_ ->]|(t & _ & _ & _ & ->)];
    [done|]. cbn. by rewrite lookup_insert_ne.
Qed.

Lemma run_delete_Ok_inv tableName ws db u db' :
  run_delete tableName ws db = (Ok u, db') →
  ∃ t, tables db !! tableName = Some t ∧
       forallb (where_compiles t) ws = true ∧
       db' = with_tables db
         (<[tableName := with_rows t
                           (filter (λ r, ¬ wheres_test ws r) (t_rows t))]> (tables db)).
Proof.
  unfold run_delete. destruct (tables db !! tableName) as [t|]; [|done].
  destruct (forallb (where_compiles t) ws) eqn:Hc; [|done].
  intros [= <- <-]. eauto.
Qed.

Lemma run_delete_other tableName ws db u db' T :
  run_delete tableName ws db = (Ok u, db') → T ≠ tableName →
  tables db' !! T = tables db !! T.
Proof.
  intros H HT. apply run_delete_Ok_inv in H as (t & _ & _ & ->).
  cbn. by rewrite lookup_insert_ne.
Qed.

Section Footprint.
Variable randomString : nat → string.
Variable schemaMap : SchemaMap.

Lemma getRandomString_run db :
  getRandomString randomString db =
  (Ok (randomString (ticks db)),
   mkDatabase (tables db) (foreign_keys db) (transaction db) (S (ticks db))).
Proof. reflexivity. Qed.

Lemma getRandomString_tables db s db' :
  getRandomString randomString db = (Ok s, db') → tables db' = tables db.
Proof. by intros [= _ <-]. Qed.

Lemma exists_state schemaName name db r db' :
  exists_ schemaMap schemaName name db = (r, db') → db' = db.
Proof.
  unfold exists_. rewrite bind_run. unfold the_schema.
  destruct (schema_lookup schemaMap schemaName) as [schema|]; [|by intros [= _ <-]].
  rewrite ret_run. destruct (isSingle schema).
  - unfold singleExists, run_count. rewrite !bind_run.
    destruct (run_select _ db) as [[rows|e] db1] eqn:E;
      apply run_select_state in E as ->; by intros [= _ <-].
  - rewrite bind_run. unfold try.
    destruct (run_select _ db) as [[rows|e] db1] eqn:E;
      apply run_select_state in E as ->.
    + by intros [= _ <-].
    + destruct e; by intros [= _ <-].
Qed.

(** [#insertOne], inverted. *)
Lemma insertOne_Ok_inv schemaName (m m' : FieldValueMap) db db' :
  insertOne randomString schemaMap schemaName m db = (Ok m', db') →
  ∃ schema t validMap dbn,
    schema_lookup schemaMap schemaName = Some schema ∧
    (truthy (m !! "name") = true ∧ m' = m ∧ dbn = db ∨
     truthy (m !! "name") = false ∧
       m' = <["name" := FRaw (VStr (randomString (ticks db)))]> m ∧
       dbn = mkDatabase (tables db) (foreign_keys db) (transaction db) (S (ticks db))) ∧
    validMap_of (filter (λ f, fieldtype f ≠ FieldTypeEnum_Table) (fields schema)) m'
      = Ok validMap ∧
    tables db !! schemaName = Some t ∧
    keys_are_columns t validMap = true ∧
    primary_free t (new_row t validMap) = true ∧
    db' = with_tables dbn
      (<[schemaName := with_rows t (t_rows t ++ [new_row t validMap])]> (tables db)).
Proof.
  unfold insertOne. intros H. bind_inv H. bind_inv H.
  apply the_schema_Ok in H1 as [Hs ->]. bind_inv H.
  apply lift_Ok in H1 as [Hv ->]. bind_inv H. injection H as <- <-.
  apply run_insert_Ok_inv in H1 as (t & Ht & Hk & _ & Hp & ->).
  exists a0, t, a1, db0.
  destruct (truthy (m !! "name")) eqn:Etr; cbn [negb] in H0.
  - injection H0 as <- <-. split; [done|]. split; [left; done|]. repeat split; done.
  - rewrite (bind_step _ _ _ _ _ (getRandomString_run db)), ret_run in H0.
    injection H0 as <- <-. split; [done|]. split; [right; done|]. repeat split; done.
Qed.

Lemma insertOne_other schemaName (m m' : FieldValueMap) db db' T :
  insertOne randomString schemaMap schemaName m db = (Ok m', db') →
  T ≠ schemaName → tables db' !! T = tables db !! T.
Proof.
  intros H HT.
  apply insertOne_Ok_inv in H as (? & ? & ? & ? & _ & _ & _ & _ & _ & _ & ->).
  cbn. by rewrite lookup_insert_ne.
Qed.

Definition updateMap_of (schema : Schema) (m : FieldValueMap) : FieldValueMap :=
  foldl (λ updateMap f,
           if bool_decide (fieldtype f ≠ FieldTypeEnum_Table) then updateMap
           else delete (fieldname f) updateMap)
        (delete "name" m) (fields schema).

(** [#updateOne], inverted. *)
Lemma updateOne_Ok_inv schemaName (m : FieldValueMap) db u db' :
  updateOne schemaMap schemaName m db = (Ok u, db') →
  ∃ schema,
    schema_lookup schemaMap schemaName = Some schema ∧
    (updateMap_of schema m = ∅ ∧ db' = db ∨
     ∃ values,
       bind_map (updateMap_of schema m) = Ok values ∧
       run_update schemaName [Where2 "name" (operand_of (m !! "name"))] values db
         = (Ok u, db')).
Proof.
  unfold updateOne. intros H. bind_inv H.
  apply the_schema_Ok in H0 as [Hs ->]. exists a. split; [done|].
  fold (updateMap_of a m) in H. case_bool_decide as Hempty.
  - injection H as _ <-. by left.
  - bind_inv H. apply lift_Ok in H0 as [Hv ->]. right. eauto.
Qed.

Lemma updateOne_other schemaName (m : FieldValueMap) db u db' T :
  updateOne schemaMap schemaName m db = (Ok u, db') →
  T ≠ schemaName → tables db' !! T = tables db !! T.
Proof.
  intros H HT. apply updateOne_Ok_inv in H as (schema & _ & [[_ ->]|(values & _ & H)]);
    [done|]. by eapply run_update_other.
Qed.

Lemma prepareChild_tables parentSchemaName parentName child field idx db child' db' :
  prepareChild randomString parentSchemaName parentName child field idx db
    = (Ok child', db') →
  tables db' = tables db.
Proof.
  unfold prepareChild. intros H. bind_inv H. injection H as _ <-.
  destruct (negb _ && _); [|by injection H0 as _ <-].
  rewrite (bind_step _ _ _ _ _ (getRandomString_run db)), ret_run in H0.
  by injection H0 as _ <-.
Qed.

Lemma upsertChild_other schemaName parentName isUpdate field acc child db acc' db' T :
  upsertChild randomString schemaMap schemaName parentName isUpdate field acc child db
    = (Ok acc', db') →
  T ≠ target_name field →
  tables db' !! T = tables db !! T.
Proof.
  unfold upsertChild. destruct acc as [done_ added]. intros H HT.
  bind_inv H. apply prepareChild_tables in H0. bind_inv H. bind_inv H.
  injection H as _ <-.
  assert (db1 = db0) as ->.
  { destruct isUpdate; [|by injection H1 as _ <-].
    destruct (a !! "name") as [[n|]|]; try done; by apply exists_state in H1. }
  rewrite <- H0. destruct a0.
  - bind_inv H2. injection H2 as _ <-. by eapply updateOne_other.
  - by eapply insertOne_other.
Qed.

Lemma insertOrUpdateChildren_other schemaName schema (m m' : FieldValueMap)
    isUpdate db db' T :
  schema_lookup schemaMap schemaName = Some schema →
  (∀ g, g ∈ fields schema → fieldtype g = FieldTypeEnum_Table →
        getIsNullOrUndef (m !! fieldname g) = false → target_name g ≠ T) →
  insertOrUpdateChildren randomString schemaMap schemaName m isUpdate db
    = (Ok m', db') →
  tables db' !! T = tables db !! T.
Proof.
  intros Hs Hother H. unfold insertOrUpdateChildren in H.
  rewrite (bind_step _ _ _ _ _ (getTableFields_run _ _ _ db Hs)) in H.
  apply (fold_each_invariant
           (λ (acc : FieldValueMap) dbk,
              (∀ k, getIsNullOrUndef (acc !! k) = getIsNullOrUndef (m !! k)) ∧
              tables dbk !! T = tables db !! T)) in H; [by destruct H | | done].
  clear H. intros g acc dbk acc' dbk' Hg [Hnull Htab] Hbody.
  apply list_elem_of_filter in Hg as [Htable Hg].
  destruct (getIsNullOrUndef (acc !! fieldname g)) eqn:Enull.
  { by injection Hbody as <- <-. }
  destruct (acc !! fieldname g) as [[v|children]|] eqn:Eg; try done.
  bind_inv Hbody. destruct a as [done_ added]. bind_inv Hbody.
  injection Hbody as <- <-. split.
  - intros k. rewrite <- Hnull. destruct (decide (k = fieldname g)) as [->|Hne].
    + by rewrite lookup_insert_eq, Eg.
    + by rewrite lookup_insert_ne.
  - assert (target_name g ≠ T) as HT
      by (apply Hother; [done | done | by rewrite <- Hnull, Eg]).
    assert (tables db0 !! T = tables dbk !! T) as E0.
    { apply (fold_each_invariant
               (λ (_ : list FieldValueMap * list RawValue) d,
                  tables d !! T = tables dbk !! T)) in Hbody0; [done | | done].
      intros child acc0 d acc0' d' _ Hd Hstep.
      rewrite <- Hd. eapply upsertChild_other; [exact Hstep | done]. }
    rewrite <- Htab, <- E0. destruct isUpdate.
    + unfold runDeleteOtherChildren in Hbody1.
      eapply run_delete_other; [exact Hbody1 | done].
    + by injection Hbody1 as _ <-.
Qed.

End Footprint.

(** ** [update] and the children it is not given *)

(** A schema with two Table fields that store their rows in the same
    child table. *)
Module Shared.

Definition Order : Schema :=
  mkSchema "Order" false
    [Sample.nameField;
     mkField "items" "Table" false None (Some "InvoiceItem");
     mkField "extras" "Table" false None (Some "InvoiceItem")].

Definition extras : Field := mkField "extras" "Table" false None (Some "InvoiceItem").

Definition schemaMap : SchemaMap :=
  [("Order", Order); ("InvoiceItem", Sample.InvoiceItem)].

Definition migrated : Database :=
  snd (migrate Sample.typeMap Sample.randomString Sample.isoTime Sample.SYSTEM
         schemaMap Sample.empty).

Definition order : FieldValueMap :=
  <["name" := Sample.str "O-1"]>
  (<["items" := FRows [{["name" := Sample.str "a"]}]]>
  (<["extras" := FRows [{["name" := Sample.str "b"]}]]> ∅)).

(** The order as stored by [insert]: item [a], extra [b]. *)
Definition stored : Database :=
  snd (insert Sample.randomString Sample.isoTime Sample.SYSTEM schemaMap
         "Order" order migrated).

(** An update that gives the items and leaves [extras] out. *)
Definition itemsOnly : FieldValueMap :=
  <["name" := Sample.str "O-1"]>
  (<["items" := FRows [{["name" := Sample.str "a"]}]]> ∅).

End Shared.

(** The child rows of one Table field of one parent. *)
Definition child_rows (db : Database) (tableName parent fieldname : string)
  : list Row :=
  filter (λ r, cell r "parent" = VStr parent ∧
               cell r "parentFieldname" = VStr fieldname)
    (Sample.rowsOf db tableName).

Section UpdateFrame.
Variable randomString isoTime : nat → string.
Variable SYSTEM : string.
Variable schemaMap : SchemaMap.

(** The claim as worded: a Table field the map leaves out keeps its child
    rows across [update]. *)
Definition update_frame_as_stated (schemaName : string) (f : Field)
    (m : FieldValueMap) (parent : string) (db : Database) : Prop :=
  getIsNullOrUndef (m !! fieldname f) = true →
  ∀ m' db',
    update randomString isoTime SYSTEM schemaMap schemaName m db = (Ok m', db') →
    child_rows db' (target_name f) parent (fieldname f)
    = child_rows db (target_name f) parent (fieldname f).

(** C10, as the code has it.  Child rows are kept by parent name in the
    field's target table, so a Table field the map leaves out (absent,
    undefined or null) keeps its child table exactly as it was provided
    no Table field that is given a list stores its rows in that same
    table, and the table is not the parent's own. *)
Theorem update_keeps_other_children schemaName schema f (m m' : FieldValueMap) db db' :
  schema_lookup schemaMap schemaName = Some schema →
  isSingle schema = false →
  f ∈ fields schema →
  fieldtype f = FieldTypeEnum_Table →
  getIsNullOrUndef (m !! fieldname f) = true →
  target_name f ≠ schemaName →
  (∀ g, g ∈ fields schema → fieldtype g = FieldTypeEnum_Table →
        getIsNullOrUndef (m !! fieldname g) = false →
        target_name g ≠ target_name f) →
  update randomString isoTime SYSTEM schemaMap schemaName m db = (Ok m', db') →
  tables db' !! target_name f = tables db !! target_name f.
Proof.
  intros Hs Hsingle Hf Htable Hnull Hself Hother H.
  unfold update in H.
  rewrite (bind_step _ _ _ _ _ (the_schema_run _ _ _ db Hs)), Hsingle in H.
  bind_inv H.
  transitivity (tables db0 !! target_name f).
  - by eapply insertOrUpdateChildren_other.
  - by eapply updateOne_other.
Qed.

End UpdateFrame.

Lemma update_keeps_other_children_witness :
  tables (snd (update Sample.randomString Sample.isoTime Sample.SYSTEM
                 Sample.schemaMap "Invoice"
                 (<["name" := Sample.str "INV-1"]> {["party" := Sample.str "Al"]})
                 Sample.oneInvoice)) !! "InvoiceItem"
  = tables Sample.oneInvoice !! "InvoiceItem".
Proof.
  apply (update_keeps_other_children Sample.randomString Sample.isoTime
           Sample.SYSTEM Sample.schemaMap "Invoice" Sample.Invoice
           (mkField "items" "Table" false None (Some "InvoiceItem"))
           (<["name" := Sample.str "INV-1"]> {["party" := Sample.str "Al"]})
           (<["name" := Sample.str "INV-1"]> {["party" := Sample.str "Al"]})).
  - reflexivity.
  - reflexivity.
  - unfold Sample.Invoice. cbn [fields]. repeat constructor.
  - reflexivity.
  - reflexivity.
  - done.
  - intros g Hg Htable Hnull.
    unfold Sample.Invoice in Hg. cbn [fields] in Hg.
    repeat (apply elem_of_cons in Hg as [->|Hg]);
      [..| by apply not_elem_of_nil in Hg]; try discriminate Htable.
    vm_compute in Hnull. discriminate Hnull.
  - vm_compute. reflexivity.
Defined.

(** C10 as worded fails when two Table fields share a child table:
    updating the order with its items only deletes the row of [extras],
    the field that was left out. *)
Lemma update_frame_counterexample :
  ¬ update_frame_as_stated Sample.randomString Sample.isoTime Sample.SYSTEM
      Shared.schemaMap "Order" Shared.extras Shared.itemsOnly "O-1" Shared.stored.
Proof.
  intros H.
  specialize (H eq_refl
    (<["name" := Sample.str "O-1"]>
     (<["items" := FRows
         [<["idx" := Sample.num 0]> (<["parentFieldname" := Sample.str "items"]>
          (<["parentSchemaName" := Sample.str "Order"]>
          (<["parent" := Sample.str "O-1"]> {["name" := Sample.str "a"]})))]]> ∅))
    (snd (update Sample.randomString Sample.isoTime Sample.SYSTEM
            Shared.schemaMap "Order" Shared.itemsOnly Shared.stored))).
  assert (length (child_rows Shared.stored (target_name Shared.extras) "O-1"
                    (fieldname Shared.extras)) = 1%nat) as Hbefore
    by (vm_compute; reflexivity).
  rewrite <- H in Hbefore; [| vm_compute; reflexivity].
  vm_compute in Hbefore. discriminate Hbefore.
Qed.
(** ** Inserting, then reading back *)

(** Tables only gain rows, at their end. *)
Definition extends_ (db db' : Database) : Prop :=
  ∀ T, match tables db !! T with
       | Some t => ∃ more, tables db' !! T = Some (with_rows t (t_rows t ++ more))
       | None => tables db' !! T = None
       end.

Lemma extends_refl db db' : tables db' = tables db → extends_ db db'.
Proof.
  intros E T. rewrite E. destruct (tables db !! T) as [t|]; [|done].
  exists []. by rewrite app_nil_r, with_rows_id.
Qed.

Lemma extends_trans db1 db2 db3 : extends_ db1 db2 → extends_ db2 db3 → extends_ db1 db3.
Proof.
  intros H12 H23 T. specialize (H12 T). specialize (H23 T).
  destruct (tables db1 !! T) as [t|].
  - destruct H12 as [more1 E1]. rewrite E1 in H23. destruct H23 as [more2 E2].
    exists (more1 ++ more2). rewrite E2. cbn. by rewrite app_assoc.
  - by rewrite H12 in H23.
Qed.

Lemma extends_append db db' tableName t row :
  tables db !! tableName = Some t →
  tables db' = <[tableName := with_rows t (t_rows t ++ [row])]> (tables db) →
  extends_ db db'.
Proof.
  intros Ht E T. rewrite E. destruct (decide (T = tableName)) as [->|Hne].
  - rewrite Ht, lookup_insert_eq. eauto.
  - rewrite lookup_insert_ne by done. destruct (tables db !! T) as [t'|]; [|done].
    exists []. by rewrite app_nil_r, with_rows_id.
Qed.

(** The value of a map's entry as a statement binds it. *)
Definition stored_value (m : FieldValueMap) (k : string) : RawValue :=
  match m !! k with
  | Some (FRaw v) => v
  | _ => VNull
  end.

Lemma bind_value_stored (m : FieldValueMap) k v :
  bind_value (m !! k) = Ok v → v = stored_value m k.
Proof.
  unfold stored_value. destruct (m !! k) as [[w|]|]; simpl; congruence.
Qed.

Lemma validMap_of_lookup fs (m : FieldValueMap) validMap :
  validMap_of fs m = Ok validMap →
  ∀ k, validMap !! k =
       if bool_decide (k ∈ fieldname <$> fs) then Some (stored_value m k) else None.
Proof.
  revert validMap. induction fs as [|f fs IH]; intros validMap H k.
  - injection H as <-. rewrite lookup_empty.
    by rewrite bool_decide_eq_false_2 by apply not_elem_of_nil.
  - cbn [validMap_of] in H. apply rbind_Ok in H as (v & Hv & H).
    apply rbind_Ok in H as (rest & Hrest & H). injection H as <-.
    apply bind_value_stored in Hv as ->. rewrite fmap_cons.
    rewrite lookup_union, (IH rest Hrest k), lookup_singleton.
    destruct (decide (k ∈ fieldname <$> fs)) as [Hin|Hout].
    + rewrite !bool_decide_eq_true_2; [| by right | done].
      by destruct (decide (fieldname f = k)).
    + rewrite (bool_decide_eq_false_2 _ Hout).
      destruct (decide (fieldname f = k)) as [<-|Hne].
      * by rewrite bool_decide_eq_true_2 by left.
      * rewrite bool_decide_eq_false_2; [done|].
        rewrite not_elem_of_cons. done.
Qed.

Lemma filter_none {A} (P : A → Prop) `{∀ x, Decision (P x)} (l : list A) :
  (∀ x, x ∈ l → ¬ P x) → filter P l = [].
Proof.
  induction l as [|x l IH]; intros Hl; [done|].
  rewrite filter_cons_False by (apply Hl; left).
  apply IH. intros y Hy. apply Hl. by right.
Qed.

Section RoundTrip.
Variable randomString isoTime : nat → string.
Variable SYSTEM : string.
Variable schemaMap : SchemaMap.

Lemma insertOne_extends schemaName (m m' : FieldValueMap) db db' :
  insertOne randomString schemaMap schemaName m db = (Ok m', db') →
  extends_ db db'.
Proof.
  intros H.
  apply insertOne_Ok_inv in H as (? & t & vm & ? & _ & _ & _ & Ht & _ & _ & ->).
  by eapply extends_append.
Qed.

Lemma upsertChild_extends schemaName parentName field acc child db acc' db' :
  upsertChild randomString schemaMap schemaName parentName false field acc child db
    = (Ok acc', db') →
  extends_ db db'.
Proof.
  unfold upsertChild. destruct acc as [done_ added]. intros H.
  bind_inv H. apply prepareChild_tables in H0. bind_inv H. injection H1 as <- <-.
  bind_inv H. injection H as _ <-.
  eapply extends_trans; [by apply extends_refl|]. by eapply insertOne_extends.
Qed.

(** The children steps leave the entries of the map that are not Table
    fields as they are. *)
Lemma insertOrUpdateChildren_insert schemaName schema (m m' : FieldValueMap) db db' :
  schema_lookup schemaMap schemaName = Some schema →
  insertOrUpdateChildren randomString schemaMap schemaName m false db = (Ok m', db') →
  extends_ db db' ∧
  ∀ k, k ∉ fieldname <$> filter (λ f, fieldtype f = FieldTypeEnum_Table) (fields schema) →
       m' !! k = m !! k.
Proof.
  intros Hs H. unfold insertOrUpdateChildren in H.
  rewrite (bind_step _ _ _ _ _ (getTableFields_run _ _ _ db Hs)) in H.
  set (tableFields := filter _ (fields schema)) in *.
  apply (fold_each_invariant
           (λ (acc : FieldValueMap) dbk,
              extends_ db dbk ∧
              ∀ k, k ∉ fieldname <$> tableFields → acc !! k = m !! k)) in H;
    [done | | split; [by apply extends_refl | done]].
  clear H. intros g acc dbk acc' dbk' Hg [Hext Hkeys] Hbody.
  destruct (getIsNullOrUndef (acc !! fieldname g)).
  { by injection Hbody as <- <-. }
  destruct (acc !! fieldname g) as [[v|children]|]; try done.
  bind_inv Hbody. destruct a as [done_ added]. bind_inv Hbody.
  injection Hbody1 as _ <-. injection Hbody as <- <-. split.
  - eapply extends_trans; [exact Hext|].
    apply (fold_each_invariant
             (λ (_ : list FieldValueMap * list RawValue) d, extends_ dbk d))
      in Hbody0; [done | | by apply extends_refl].
    intros child acc0 d acc0' d' _ Hd Hstep.
    eapply extends_trans; [exact Hd|]. by eapply upsertChild_extends.
  - intros k Hk. rewrite lookup_insert_ne; [by apply Hkeys|].
    intros <-. apply Hk. by apply list_elem_of_fmap_2.
Qed.








Lemma selected_column t fs k :
  k ∈ fs → k ∈ column_names t → k ∈ selected t fs.
Proof.
  intros Hk Hcol. unfold selected. apply list_elem_of_bind. exists k. split; [|done].
  case_bool_decide; [by subst | by apply list_elem_of_singleton].
Qed.

Hypothesis randomString_nonempty : ∀ k, randomString k ≠ "".

(** The table's [name] column is its primary key. *)
Definition name_is_key (t : Table) : Prop :=
  ∃ c, c ∈ t_columns t ∧ col_name c = "name" ∧ col_primary c = true.

Definition plain_fields (schema : Schema) : list Field :=
  filter (λ f, fieldtype f ≠ FieldTypeEnum_Table) (fields schema).

Definition table_fields (schema : Schema) : list Field :=
  filter (λ f, fieldtype f = FieldTypeEnum_Table) (fields schema).

(** The schema's [name] field is a plain column. *)
Definition has_name_field (schema : Schema) : Prop :=
  "name" ∈ fieldname <$> plain_fields schema ∧
  "name" ∉ fieldname <$> table_fields schema.

Lemma primary_free_name t (r : Row) n :
  name_is_key t → primary_free t r = true → cell r "name" = VStr n →
  ∀ r', r' ∈ t_rows t → cell r' "name" ≠ VStr n.
Proof.
  intros (c & Hc & Hname & Hprim) Hfree Hr r' Hr' E.
  unfold primary_free in Hfree.
  pose proof (proj1 (forallb_forall _ _) Hfree c (proj1 (list_elem_of_In _ _) Hc)) as H.
  cbv beta in H. rewrite Hprim, Hname in H. cbn [negb orb] in H.
  apply negb_true_iff, not_true_iff_false in H. apply H.
  apply existsb_exists. exists r'. split; [by apply list_elem_of_In|].
  rewrite Hr. by apply sql_eq_text.
Qed.




End RoundTrip.



(** ** Renderer and setup helpers *)

Lemma endsWith_refl s : Renderer.endsWith s s = true.
Proof. destruct s; cbn; by rewrite bool_decide_eq_true_2. Qed.

Lemma endsWith_cons c s suffix :
  Renderer.endsWith (String c s) suffix
  = bool_decide (String c s = suffix) || Renderer.endsWith s suffix.
Proof. reflexivity. Qed.

Lemma endsWith_app p s suffix :
  Renderer.endsWith s suffix = true → Renderer.endsWith (p +:+ s) suffix = true.
Proof.
  intros Hs. induction p as [|c p IH]; [done|].
  change (String c p +:+ s) with (String c (p +:+ s)).
  by rewrite endsWith_cons, IH, orb_true_r.
Qed.

(** [getSavePath]: a path that is handed back, unless it is empty, ends
    with the extension, whatever the dialog answered. *)
Theorem getSavePath_ends_with_extention dialog name extention path :
  Renderer.filePath (Renderer.getSavePath dialog name extention) = Some path →
  path ≠ "" →
  Renderer.endsWith path extention = true.
Proof.
  unfold Renderer.getSavePath. cbn [Renderer.filePath].
  destruct (Renderer.filePath (dialog _)) as [p|]; cbn [truthy_string]; [|done].
  case_bool_decide as Hp.
  - intros [= <-]. by subst p.
  - destruct (Renderer.endsWith p extention) eqn:He; cbn [negb].
    + by intros [= <-].
    + intros [= <-] _. do 2 apply endsWith_app. apply endsWith_refl.
Qed.

Lemma getSavePath_ends_with_extention_witness :
  Renderer.endsWith "/home/books/ledger.pdf" "pdf" = true.
Proof.
  apply (getSavePath_ends_with_extention
           (λ _, Renderer.mkSaveResponse false (Some "/home/books/ledger"))
           "ledger" "pdf").
  - reflexivity.
  - discriminate.
Defined.

(** [incrementOpenCount]: with no entry for the company and the file, the
    count is 0 and the list is written back as it was. *)
Theorem incrementOpenCount_no_entry companyName dbPath files :
  Forall (λ f, Setup.companyName f ≠ companyName ∨ Setup.dbPath f ≠ dbPath) files →
  Setup.incrementOpenCount companyName files dbPath = (0%Z, files).
Proof.
  unfold Setup.incrementOpenCount.
  induction 1 as [|file files Hfile _ IH]; cbn [Setup.countOpen]; [done|].
  by rewrite bool_decide_eq_true_2, IH by done.
Qed.

Lemma incrementOpenCount_no_entry_witness :
  Setup.incrementOpenCount "Acme" [Setup.mkConfigFile "Other" "/a.db" (Some 3%Z)] "/a.db"
  = (0%Z, [Setup.mkConfigFile "Other" "/a.db" (Some 3%Z)]).
Proof.
  apply incrementOpenCount_no_entry.
  constructor; [left; cbn; discriminate | constructor].
Defined.



(** ** [truncate] *)









(** ** [rename] *)


Lemma name_singleton_nonempty (newName : string) :
  ({["name" := VStr newName]} : Row) ≠ ∅.
Proof. apply insert_non_empty. Qed.




Lemma two_elements {A} (x y : A) (l : list A) :
  x ∈ l → y ∈ l → x ≠ y → (2 ≤ length l)%nat.
Proof.
  intros Hx Hy Hne. destruct l as [|a [|b l]]; cbn; [| |lia].
  - by apply not_elem_of_nil in Hx.
  - apply list_elem_of_singleton in Hx, Hy. congruence.
Qed.

(** [rename] to a name another row of the table has: the statement fails
    on the primary key and nothing is changed. *)
Theorem rename_to_taken_name schemaName oldName newName db t :
  tables db !! schemaName = Some t →
  name_is_key t →
  VStr oldName ∈ (λ r, cell r "name") <$> t_rows t →
  VStr newName ∈ (λ r, cell r "name") <$> t_rows t →
  oldName ≠ newName →
  rename schemaName oldName newName db = (Err DbError, db).
Proof.
  intros Ht (c & Hc & Hname & Hprim) Hold Hnew Hne.
  apply list_elem_of_fmap in Hold as (r1 & Hr1 & Hin1).
  apply list_elem_of_fmap in Hnew as (r2 & Hr2 & Hin2).
  unfold rename, commit. rewrite then_ret. unfold run_update_key.
  rewrite bool_decide_eq_false_2 by apply name_singleton_nonempty.
  rewrite Ht.
  set (ws := [Where2 "name" (OVal (VStr oldName))]).
  set (values := ({["name" := VStr newName]} : Row)).
  destruct (primary_kept t (marked_rows ws values (t_rows t))) eqn:Hkept;
    [exfalso | by rewrite andb_false_r].
  unfold primary_kept in Hkept.
  pose proof (proj1 (forallb_forall _ _) Hkept c (proj1 (list_elem_of_In _ _) Hc)) as H.
  cbv beta in H. rewrite Hprim, Hname in H. cbn [negb orb] in H.
  assert (wheres_test ws r1 = true) as Hw1
    by (unfold ws; rewrite wheres_test_single; by apply where_test_eq_text).
  assert (wheres_test ws r2 = false) as Hw2.
  { unfold ws. rewrite wheres_test_single. apply not_true_iff_false.
    intros Hw. apply where_test_eq_text in Hw. congruence. }
  assert ((true, values ∪ r1) ∈ marked_rows ws values (t_rows t)) as Hm1.
  { apply list_elem_of_fmap. exists r1. by rewrite Hw1. }
  assert ((false, r2) ∈ marked_rows ws values (t_rows t)) as Hm2.
  { apply list_elem_of_fmap. exists r2. by rewrite Hw2. }
  pose proof (proj1 (forallb_forall _ _) H _ (proj1 (list_elem_of_In _ _) Hm1)) as H1.
  cbn [fst snd negb orb] in H1. apply bool_decide_eq_true in H1.
  assert (cell (values ∪ r1) "name" = VStr newName) as Hcell
    by (apply cell_union_given; apply lookup_singleton_eq).
  rewrite Hcell in H1.
  enough (2 ≤ length (filter (λ q : bool * Row, sql_eq (cell q.2 "name") (VStr newName))
                        (marked_rows ws values (t_rows t))))%nat by lia.
  apply (two_elements (true, values ∪ r1) (false, r2)); [| |done].
  - apply list_elem_of_filter. split; [|done]. cbn. rewrite Hcell.
    by apply Is_true_true, sql_eq_text.
  - apply list_elem_of_filter. split; [|done]. cbn. rewrite <- Hr2.
    by apply Is_true_true, sql_eq_text.
Qed.

(** [rename] of a name no row has succeeds and changes nothing. *)
Theorem rename_missing_name schemaName oldName newName db t :
  tables db !! schemaName = Some t →
  has_column t "name" = true →
  VStr oldName ∉ (λ r, cell r "name") <$> t_rows t →
  rename schemaName oldName newName db = (Ok tt, db).
Proof.
  intros Ht Hcol Hold.
  assert (∀ r, r ∈ t_rows t →
               wheres_test [Where2 "name" (OVal (VStr oldName))] r = false) as Hw.
  { intros r Hr. rewrite wheres_test_single. apply not_true_iff_false.
    intros H. apply where_test_eq_text in H. apply Hold.
    apply list_elem_of_fmap. eauto. }
  unfold rename, commit. rewrite then_ret. unfold run_update_key.
  rewrite bool_decide_eq_false_2 by apply name_singleton_nonempty.
  rewrite Ht.
  set (ws := [Where2 "name" (OVal (VStr oldName))]) in *.
  set (values := ({["name" := VStr newName]} : Row)).
  assert (marked_rows ws values (t_rows t) = (λ r, (false, r)) <$> t_rows t) as ->.
  { apply list_fmap_ext. intros i r Hr. cbv beta.
    by rewrite Hw by (by eapply list_elem_of_lookup_2). }
  assert (existsb (wheres_test ws) (t_rows t) = false) as ->.
  { apply not_true_iff_false. intros (r & Hr & H)%existsb_exists.
    apply list_elem_of_In in Hr. by rewrite Hw in H. }
  assert (primary_kept t ((λ r, (false, r)) <$> t_rows t) = true) as ->.
  { unfold primary_kept. apply forallb_forall. intros c _.
    apply orb_true_iff. right. apply forallb_forall.
    intros p (r & -> & _)%list_elem_of_In%list_elem_of_fmap. done. }
  assert (keys_are_columns t values = true) as ->.
  { apply keys_are_columns_spec. intros k v Hk.
    apply lookup_singleton_Some in Hk as [<- _]. by apply has_column_true. }
  unfold ws at 1. cbn [forallb]. rewrite where_compiles_eq, Hcol. cbn.
  rewrite <- list_fmap_compose, list_fmap_id, with_rows_id.
  unfold put_table. rewrite insert_id by done. by destruct db.
Qed.

(** A second invoice beside the first. *)
Definition twoInvoices : Database :=
  snd (insert Sample.randomString Sample.isoTime Sample.SYSTEM Sample.schemaMap
         "Invoice" (<["name" := Sample.str "INV-2"]> ∅) Sample.oneInvoice).

Lemma rename_to_taken_name_witness :
  rename "Invoice" "INV-1" "INV-2" twoInvoices = (Err DbError, twoInvoices).
Proof.
  apply (rename_to_taken_name "Invoice" "INV-1" "INV-2" twoInvoices
           (default (mkTable [] [] []) (tables twoInvoices !! "Invoice"))).
  - vm_compute. reflexivity.
  - exists (mkColumn "name" "text" true None true). split; [|done].
    vm_compute. left.
  - apply (bool_decide_unpack _). vm_compute. exact I.
  - apply (bool_decide_unpack _). vm_compute. exact I.
  - discriminate.
Defined.

Lemma rename_missing_name_witness :
  rename "Invoice" "INV-9" "INV-2" Sample.oneInvoice = (Ok tt, Sample.oneInvoice).
Proof.
  apply (rename_missing_name "Invoice" "INV-9" "INV-2" Sample.oneInvoice
           (default (mkTable [] [] []) (tables Sample.oneInvoice !! "Invoice"))).
  - vm_compute. reflexivity.
  - vm_compute. reflexivity.
  - apply (bool_decide_unpack _). vm_compute. exact I.
Defined.

(** ** [getCountryCode] *)

(** [getCountryCode] never fails and never writes: whatever the file
    holds it answers, and the answer is ["in"] when there is no
    [SingleValue] table, when the table cannot be queried by field name
    and parent, and when no row holds the country code of the system
    settings. *)
Theorem getCountryCode_answers db :
  ∃ countryCode,
    getCountryCode db
    = (Ok countryCode, mkDatabase (tables db) true (transaction db) (ticks db)) ∧
    ((∀ t r, tables db !! "SingleValue" = Some t → r ∈ t_rows t →
             ¬ (cell r "fieldname" = VStr "countryCode" ∧
                cell r "parent" = VStr "SystemSettings")) →
     countryCode = VStr "in").
Proof.
  unfold getCountryCode, connect, close.
  set (db1 := mkDatabase (tables db) true (transaction db) (ticks db)).
  set (q := mkQuery "SingleValue" ["*"] _ None None None None).
  assert (∀ k : unit → M RawValue, (pragma_foreign_keys true ≫= k) db = k tt db1)
    as -> by done.
  rewrite bind_run. unfold try, run_select. cbn [q_table q tables db1].
  destruct (tables db !! "SingleValue") as [t|] eqn:Ht; cbn [tables db1].
  2: { exists (VStr "in"). by rewrite ret_run, bind_run, ret_run. }
  destruct (query_compiles t q) eqn:Hq.
  2: { exists (VStr "in"). by rewrite ret_run, bind_run, ret_run. }
  eexists. rewrite bind_run, ret_run. split; [reflexivity|].
  intros Hnone.
  assert (select_rows t q = []) as ->; [|done].
  unfold select_rows. cbn [q apply_limit apply_offset apply_order apply_group
    q_limit q_offset q_orderBy q_groupBy q_where].
  rewrite filter_none; [done|].
  intros r Hr Hw. apply (Hnone t r eq_refl Hr).
  apply Is_true_true in Hw. unfold wheres_test in Hw. cbn [forallb] in Hw.
  apply andb_true_iff in Hw as [H1 H2]. apply andb_true_iff in H2 as [H2 _].
  by apply where_test_eq_text in H1, H2.
Qed.

(** ** [getSingleValues] *)

(** The rows a key asks for. *)
Definition key_matches (k : SingleValueKey) (r : Row) : Prop :=
  match k with
  | ByFieldname fieldname | ByKey fieldname None =>
      cell r "fieldname" = VStr fieldname
  | ByKey fieldname (Some parent) =>
      cell r "fieldname" = VStr fieldname ∧ cell r "parent" = VStr parent
  end.

Global Instance key_matches_dec k r : Decision (key_matches k r).
Proof. destruct k as [f|f [p|]]; cbn [key_matches]; apply _. Defined.




(** ** Reading leaves the store alone *)

Lemma fold_each_state {A S} (l : list A) (body : S → A → M S) :
  (∀ acc x db, (body acc x db).2 = db) →
  ∀ acc db, (fold_each l acc body db).2 = db.
Proof.
  intros Hbody. induction l as [|x l IH]; intros acc db; cbn [fold_each]; [done|].
  rewrite bind_run. specialize (Hbody acc x db).
  destruct (body acc x db) as [[acc'|e] db1]; cbn in Hbody; subst db1; [apply IH | done].
Qed.

Section Reads.
Variable schemaMap : SchemaMap.

Lemma run_select_snd q db : (run_select q db).2 = db.
Proof.
  destruct (run_select q db) as [r db'] eqn:E. by apply run_select_state in E.
Qed.

Lemma getAll_state schemaName options db :
  (getAll schemaMap schemaName options db).2 = db.
Proof.
  unfold getAll. destruct (schema_lookup schemaMap schemaName); [|done].
  rewrite bind_run. unfold lift.
  destruct (getQueryBuilder _ _ _ _) as [q|e]; [|done]. apply run_select_snd.
Qed.

Lemma get_state schemaName name fieldsArg db :
  (get schemaMap schemaName name fieldsArg db).2 = db.
Proof.
  unfold get. rewrite bind_run. unfold the_schema at 1.
  destruct (schema_lookup schemaMap schemaName) as [schema|] eqn:Hs; [|done].
  rewrite ret_run. destruct (negb (isSingle schema) && _); [done|].
  destruct (isSingle schema).
  - unfold getSingle. rewrite bind_run.
    pose proof (getAll_state "SingleValue"
      (mkGetAllOptions (Some ["fieldname"; "value"])
         (Some [("parent", FLit (VStr schemaName))])
         None None None (Some "fieldname") (Some asc)) db) as H.
    destruct (getAll _ _ _ db) as [[rows|e] db1]; cbn in H; by subst.
  - rewrite (bind_step _ _ _ _ _ (getTableFields_run _ _ _ db Hs)).
    rewrite bind_run.
    set (first := if bool_decide (_ ≠ []) then _ else _).
    assert ((first db).2 = db) as Hfirst.
    { unfold first. case_bool_decide; [|done]. rewrite bind_run.
      unfold getOne, run_first. rewrite bind_run.
      pose proof (run_select_snd
        (mkQuery schemaName
           (filter (λ f, f ∉ fieldname <$>
                      filter (λ f0, fieldtype f0 = FieldTypeEnum_Table) (fields schema))
              match fieldsArg with
              | Some (OneField f) => [f]
              | Some (ManyFields fs) => fs
              | None => fieldname <$> fields schema
              end)
           [Where2 "name" (OVal (VStr (default "" name)))] None None None None) db) as Hsel.
      destruct (run_select _ db) as [[rows|e] db1]; cbn in Hsel; by subst. }
    destruct (first db) as [[fieldValueMap|e] db1]; cbn in Hfirst; subst db1; [|done].
    case_bool_decide; [|done].
    apply fold_each_state. intros acc g dbk. rewrite bind_run.
    pose proof (getAll_state (target_name g)
      (mkGetAllOptions (Some ["*"]) (Some [("parent", FLit (VStr (default "" name)))])
         None None None (Some "idx") (Some asc)) dbk) as Hall.
    destruct (getAll _ _ _ dbk) as [[rows|e] db1]; cbn in Hall; by subst.
Qed.

(** The reads never write: [get], [getAll], [exists] and [getSingleValues]
    hand the store back exactly as they found it, whether they answer or
    fail. *)
Theorem reads_leave_the_store schemaName name fieldsArg options key first others db :
  (get schemaMap schemaName name fieldsArg db).2 = db ∧
  (getAll schemaMap schemaName options db).2 = db ∧
  (exists_ schemaMap schemaName key db).2 = db ∧
  (getSingleValues first others db).2 = db.
Proof.
  split; [apply get_state|]. split; [apply getAll_state|]. split.
  - destruct (exists_ _ _ _ db) as [r db'] eqn:E. by apply exists_state in E.
  - unfold getSingleValues, try, run_select_any.
    destruct (tables db !! "SingleValue") as [t|]; [|done].
    by destruct (_ && _).
Qed.

End Reads.

(** ** What [insert] and [update] leave alone *)

Lemma validMap_of_Err fs (m : FieldValueMap) e : validMap_of fs m = Err e → e = DbError.
Proof.
  induction fs as [|f fs IH]; cbn [validMap_of]; [done|].
  destruct (m !! fieldname f) as [[v|l]|]; cbn [bind_value rbind];
    [| by intros [= <-] |];
    (destruct (validMap_of fs m); cbn [rbind]; [done | intros [= <-]; by apply IH]).
Qed.

Lemma updateMap_of_name schema (m : FieldValueMap) : updateMap_of schema m !! "name" = None.
Proof.
  unfold updateMap_of.
  assert (∀ fs (acc : FieldValueMap), acc !! "name" = None →
            foldl (λ updateMap f,
                     if bool_decide (fieldtype f ≠ FieldTypeEnum_Table) then updateMap
                     else delete (fieldname f) updateMap) acc fs !! "name" = None) as H.
  { induction fs as [|f fs IH]; intros acc Hacc; cbn [foldl]; [done|].
    apply IH. case_bool_decide; [done|].
    destruct (decide (fieldname f = "name")) as [->|Hne].
    - apply lookup_delete_eq.
    - by rewrite lookup_delete_ne. }
  apply H. apply lookup_delete_eq.
Qed.

Section Writes.
Variable randomString isoTime : nat → string.
Variable SYSTEM : string.
Variable schemaMap : SchemaMap.

(** A successful [insert] into a collection only adds rows: every table
    keeps its columns and the rows it had, in their order, with the new
    rows after them; no table appears or disappears. *)
Theorem insert_only_appends schemaName schema (m m' : FieldValueMap) db db' :
  schema_lookup schemaMap schemaName = Some schema →
  isSingle schema = false →
  insert randomString isoTime SYSTEM schemaMap schemaName m db = (Ok m', db') →
  extends_ db db'.
Proof.
  intros Hs Hsingle H. unfold insert in H.
  rewrite (bind_step _ _ _ _ _ (the_schema_run _ _ _ db Hs)), Hsingle in H.
  bind_inv H. apply insertOne_extends in H0.
  eapply extends_trans; [exact H0|].
  by eapply insertOrUpdateChildren_insert.
Qed.

(** [insert] under a name the table already holds (name being the primary
    key) fails with a database error before anything is written: no row,
    no child row, no draw of a random name. *)
Theorem insert_taken_name schemaName schema (m : FieldValueMap) n db t :
  schema_lookup schemaMap schemaName = Some schema →
  isSingle schema = false →
  "name" ∈ fieldname <$> plain_fields schema →
  tables db !! schemaName = Some t →
  name_is_key t →
  m !! "name" = Some (FRaw (VStr n)) →
  n ≠ "" →
  VStr n ∈ (λ r, cell r "name") <$> t_rows t →
  insert randomString isoTime SYSTEM schemaMap schemaName m db = (Err DbError, db).
Proof.
  intros Hs Hsingle Hfield Ht Hkey Hname Hn Hold.
  unfold insert.
  rewrite (bind_step _ _ _ _ _ (the_schema_run _ _ _ db Hs)), Hsingle.
  rewrite bind_run. unfold insertOne. rewrite bind_run, Hname. cbn [truthy].
  rewrite bool_decide_eq_false_2 by done. cbn [negb]. rewrite ret_run.
  rewrite (bind_step _ _ _ _ _ (the_schema_run _ _ _ db Hs)).
  rewrite bind_run. unfold lift. fold (plain_fields schema).
  destruct (validMap_of (plain_fields schema) m) as [validMap|e] eqn:Hv.
  2: { by apply validMap_of_Err in Hv as ->. }
  rewrite bind_run. unfold run_insert. rewrite Ht.
  destruct (primary_free t (new_row t validMap)) eqn:Hfree;
    [exfalso | by rewrite andb_false_r].
  apply list_elem_of_fmap in Hold as (r & Hr & Hin).
  refine (primary_free_name t _ n Hkey Hfree _ r Hin (eq_sym Hr)).
  apply cell_new_row_given.
  - rewrite (validMap_of_lookup _ _ _ Hv), bool_decide_eq_true_2 by done.
    unfold stored_value. by rewrite Hname.
  - destruct Hkey as (c & Hc & <- & _). by apply list_elem_of_fmap_2.
Qed.

(** [update] on a collection never adds, removes or renames a row of the
    schema's own table: the names it holds, in order, are the same before
    and after (so updating a name that is not stored creates no row),
    provided no Table field of the schema has that table as target. *)
Theorem update_keeps_names schemaName schema (m m' : FieldValueMap) db db' :
  schema_lookup schemaMap schemaName = Some schema →
  isSingle schema = false →
  (∀ g, g ∈ fields schema → fieldtype g = FieldTypeEnum_Table →
        target_name g ≠ schemaName) →
  update randomString isoTime SYSTEM schemaMap schemaName m db = (Ok m', db') →
  (λ r, cell r "name") <$> Sample.rowsOf db' schemaName
  = (λ r, cell r "name") <$> Sample.rowsOf db schemaName.
Proof.
  intros Hs Hsingle Htargets H. unfold update in H.
  rewrite (bind_step _ _ _ _ _ (the_schema_run _ _ _ db Hs)), Hsingle in H.
  bind_inv H.
  apply (insertOrUpdateChildren_other _ _ _ schema _ _ _ _ _ schemaName Hs) in H;
    [|by intros g Hg Ht _; apply Htargets].
  unfold Sample.rowsOf. rewrite H.
  apply updateOne_Ok_inv in H0 as (schema' & Hs' & [[_ ->]|(values & Hbind & Hrun)]);
    [done|].
  assert (schema' = schema) as -> by congruence.
  assert (values !! "name" = None) as Hnone.
  { unfold bind_map in Hbind. case_bool_decide; [|done]. injection Hbind as <-.
    by rewrite lookup_omap, updateMap_of_name. }
  apply run_update_Ok_inv in Hrun as [[_ ->]|(t & Ht & _ & _ & ->)]; [done|].
  cbn. rewrite lookup_insert_eq, Ht. cbn.
  unfold updated_rows. rewrite <- list_fmap_compose.
  apply list_fmap_ext. intros i r _. unfold compose.
  destruct (wheres_test _ r); [|done]. by apply cell_union_other.
Qed.

End Writes.

Lemma insert_only_appends_witness : extends_ Sample.migrated Sample.oneInvoice.
Proof.
  apply (insert_only_appends Sample.randomString Sample.isoTime Sample.SYSTEM
           Sample.schemaMap "Invoice" Sample.Invoice Sample.invoice
           (match fst (insert Sample.randomString Sample.isoTime Sample.SYSTEM
                         Sample.schemaMap "Invoice" Sample.invoice Sample.migrated)
            with Ok m => m | Err _ => ∅ end)).
  - reflexivity.
  - reflexivity.
  - vm_compute. reflexivity.
Defined.

Lemma insert_taken_name_witness :
  insert Sample.randomString Sample.isoTime Sample.SYSTEM Sample.schemaMap "Invoice"
    Sample.invoice Sample.oneInvoice
  = (Err DbError, Sample.oneInvoice).
Proof.
  apply (insert_taken_name Sample.randomString Sample.isoTime Sample.SYSTEM
           Sample.schemaMap "Invoice" Sample.Invoice Sample.invoice "INV-1"
           Sample.oneInvoice
           (default (mkTable [] [] []) (tables Sample.oneInvoice !! "Invoice"))).
  - reflexivity.
  - reflexivity.
  - apply (bool_decide_unpack _). vm_compute. exact I.
  - vm_compute. reflexivity.
  - exists (mkColumn "name" "text" true None true). split; [|done].
    vm_compute. left.
  - vm_compute. reflexivity.
  - discriminate.
  - apply (bool_decide_unpack _). vm_compute. exact I.
Defined.

Lemma update_keeps_names_witness :
  (λ r, cell r "name") <$>
    Sample.rowsOf
      (snd (update Sample.randomString Sample.isoTime Sample.SYSTEM Sample.schemaMap
              "Invoice" (<["name" := Sample.str "INV-7"]> {["party" := Sample.str "Al"]})
              Sample.oneInvoice)) "Invoice"
  = (λ r, cell r "name") <$> Sample.rowsOf Sample.oneInvoice "Invoice".
Proof.
  apply (update_keeps_names Sample.randomString Sample.isoTime Sample.SYSTEM
           Sample.schemaMap "Invoice" Sample.Invoice
           (<["name" := Sample.str "INV-7"]> {["party" := Sample.str "Al"]})
           (<["name" := Sample.str "INV-7"]> {["party" := Sample.str "Al"]})).
  - reflexivity.
  - reflexivity.
  - intros g Hg Ht.
    assert (g ∈ filter (λ f, fieldtype f = FieldTypeEnum_Table) (fields Sample.Invoice))
      as Hin by (by apply list_elem_of_filter).
    assert (filter (λ f, fieldtype f = FieldTypeEnum_Table) (fields Sample.Invoice)
            = [mkField "items" "Table" false None (Some "InvoiceItem")]) as E
      by (vm_compute; reflexivity).
    rewrite E in Hin. apply list_elem_of_singleton in Hin as ->. discriminate.
  - vm_compute. reflexivity.
Defined.

(** ** Deleting twice *)

(** Nothing in table [T] is left for the statement to delete. *)
Definition nothing_to_delete (T : string) (ws : list Where) (db : Database) : Prop :=
  ∃ t, tables db !! T = Some t ∧ forallb (where_compiles t) ws = true ∧
       ∀ r, r ∈ t_rows t → ¬ wheres_test ws r.

Lemma run_delete_settles T ws db u db' :
  run_delete T ws db = (Ok u, db') → nothing_to_delete T ws db'.
Proof.
  intros (t & Ht & Hc & ->)%run_delete_Ok_inv. eexists. cbn.
  rewrite lookup_insert_eq. split; [done|]. split; [done|].
  by intros r [Hr _]%list_elem_of_filter.
Qed.

Lemma run_delete_settled T ws db :
  nothing_to_delete T ws db → run_delete T ws db = (Ok tt, db).
Proof.
  intros (t & Ht & Hc & Hnone). rewrite (run_delete_ok _ _ _ t) by done.
  rewrite filter_all by done. rewrite with_rows_id.
  unfold with_tables. rewrite insert_id by done. by destruct db.
Qed.

Lemma run_delete_keeps_settled T ws T' ws' db u db' :
  nothing_to_delete T ws db → run_delete T' ws' db = (Ok u, db') →
  nothing_to_delete T ws db'.
Proof.
  intros (t & Ht & Hc & Hnone) (t' & Ht' & _ & ->)%run_delete_Ok_inv.
  unfold nothing_to_delete. cbn. destruct (decide (T = T')) as [->|Hne].
  - rewrite lookup_insert_eq. eexists. split; [done|].
    assert (t' = t) as -> by congruence. split; [done|].
    intros r [_ Hr]%list_elem_of_filter. by apply Hnone.
  - rewrite lookup_insert_ne by done. eauto.
Qed.

Lemma delete_children_settle name (l : list Field) :
  ∀ db u db',
    for_each l (λ field, deleteChildren (target_name field) name) db = (Ok u, db') →
    (∀ T ws, nothing_to_delete T ws db → nothing_to_delete T ws db') ∧
    (∀ f, f ∈ l →
          nothing_to_delete (target_name f) [Where2 "parent" (OVal (VStr name))] db').
Proof.
  induction l as [|f l IH]; intros db u db' H.
  - injection H as _ <-. split; [done|]. by intros f Hf%not_elem_of_nil.
  - cbn [for_each] in H. bind_inv H. unfold deleteChildren in H0.
    destruct (IH _ _ _ H) as [Hkeep Hl]. split.
    + intros T ws HT. apply Hkeep. by eapply run_delete_keeps_settled.
    + intros g [->|Hg]%elem_of_cons; [|by apply Hl].
      apply Hkeep. by eapply run_delete_settles.
Qed.

Lemma delete_children_settled name (l : list Field) db :
  (∀ f, f ∈ l →
        nothing_to_delete (target_name f) [Where2 "parent" (OVal (VStr name))] db) →
  for_each l (λ field, deleteChildren (target_name field) name) db = (Ok tt, db).
Proof.
  induction l as [|f l IH]; intros Hl; [done|]. cbn [for_each].
  unfold deleteChildren at 1.
  rewrite (bind_step _ _ _ _ _ (run_delete_settled _ _ _ (Hl f ltac:(left)))).
  apply IH. intros g Hg. apply Hl. by right.
Qed.

(** [delete] is idempotent: once it has succeeded, deleting the same name
    again succeeds and changes nothing. *)
Theorem delete_twice (schemaMap : SchemaMap) schemaName name db db' :
  delete_ schemaMap schemaName name db = (Ok tt, db') →
  delete_ schemaMap schemaName name db' = (Ok tt, db').
Proof.
  intros H. unfold delete_ in *. bind_inv H.
  apply the_schema_Ok in H0 as [Hs ->].
  rewrite (bind_step _ _ _ _ _ (the_schema_run _ _ _ db' Hs)).
  destruct (isSingle a).
  - unfold deleteSingle in *. by eapply run_delete_settled, run_delete_settles.
  - bind_inv H. bind_inv H. unfold deleteOne in *.
    rewrite (getTableFields_run _ _ _ db0 Hs) in H1. injection H1 as <- <-.
    apply run_delete_settles in H0.
    destruct (delete_children_settle _ _ _ _ _ H) as [Hkeep Hl].
    rewrite (bind_step _ _ _ _ _ (run_delete_settled _ _ _ (Hkeep _ _ H0))).
    rewrite (bind_step _ _ _ _ _ (getTableFields_run _ _ _ db' Hs)).
    by apply delete_children_settled.
Qed.

Lemma delete_twice_witness :
  let db' := snd (delete_ Sample.schemaMap "Invoice" "INV-1" Sample.oneInvoice) in
  delete_ Sample.schemaMap "Invoice" "INV-1" db' = (Ok tt, db').
Proof.
  apply (delete_twice Sample.schemaMap "Invoice" "INV-1" Sample.oneInvoice).
  vm_compute. reflexivity.
Defined.

(** ** Deleting a field of a singleton *)

Lemma list_to_map_drop_key (l : list Row) (hit : Row → Prop)
    `{∀ r, Decision (hit r)} (f : string) :
  (∀ r, r ∈ l → hit r ↔ fst (entry_of r) = f) →
  (list_to_map (entry_of <$> filter (λ r, ¬ hit r) l) : FieldValueMap)
  = delete f (list_to_map (entry_of <$> l)).
Proof.
  induction l as [|r l IH]; intros Hl.
  - symmetry. apply delete_empty.
  - assert (∀ r', r' ∈ l → hit r' ↔ (entry_of r').1 = f) as Hl'
      by (intros r' Hr'; apply Hl; by right).
    rewrite fmap_cons. cbn [list_to_map foldr].
    destruct (decide (hit r)) as [Hr|Hr].
    + rewrite filter_cons_False by (intros Hn; by apply Hn).
      rewrite (IH Hl'). apply Hl in Hr; [|left]. rewrite <- Hr.
      by rewrite delete_insert_eq.
    + rewrite filter_cons_True by done. rewrite fmap_cons. cbn [list_to_map foldr].
      rewrite (IH Hl'), delete_insert_ne; [done|].
      intros E. apply Hr. apply Hl; [left | done].
Qed.

Lemma NoDup_fmap_filter {A B} (f : A → B) (P : A → Prop) `{∀ x, Decision (P x)} l :
  NoDup (f <$> l) → NoDup (f <$> filter P l).
Proof.
  intros Hl. refine (sublist_NoDup _ _ Hl _).
  apply fmap_sublist, sublist_filter.
Qed.

Section DeleteField.
Variable schemaMap : SchemaMap.

(** Deleting a field of a singleton takes that field, and only that
    field, out of the document [get] returns. *)
Theorem singleton_delete_field singleSchemaName schema fieldname db t :
  schema_lookup schemaMap singleSchemaName = Some schema →
  isSingle schema = true →
  is_Some (schema_lookup schemaMap "SingleValue") →
  tables db !! "SingleValue" = Some t →
  single_value_table t →
  one_row_per_field singleSchemaName t →
  ∃ db' doc,
    delete_ schemaMap singleSchemaName fieldname db = (Ok tt, db') ∧
    (∀ name fieldsArg,
       get schemaMap singleSchemaName name fieldsArg db = (Ok doc, db)) ∧
    (∀ name fieldsArg,
       get schemaMap singleSchemaName name fieldsArg db'
       = (Ok (delete fieldname doc), db')).
Proof.
  intros Hs Hsingle [sv Hsv] Ht Htable Hwf.
  pose proof Htable as (Hcols & _ & _).
  set (key := [Where2 "parent" (OVal (VStr singleSchemaName));
               Where2 "fieldname" (OVal (VStr fieldname))]).
  set (t' := with_rows t (filter (λ r, ¬ wheres_test key r) (t_rows t))).
  exists (with_tables db (<["SingleValue" := t']> (tables db))),
         (single_doc singleSchemaName t).
  split; [|split].
  - unfold delete_.
    rewrite (bind_step _ _ _ _ _ (the_schema_run _ _ _ db Hs)), Hsingle.
    unfold deleteSingle. apply run_delete_ok; [done|].
    unfold key. cbn [forallb]. rewrite !where_compiles_eq.
    rewrite !(proj2 (has_column_true _ _)); [done | apply Hcols ..];
      unfold single_value_columns; repeat constructor.
  - intros name fieldsArg. rewrite (get_singleton _ _ schema) by done.
    by apply (getSingle_run _ _ sv).
  - intros name fieldsArg. rewrite (get_singleton _ _ schema) by done.
    assert (single_rows singleSchemaName t'
            = filter (λ r, ¬ touched_row singleSchemaName fieldname r)
                (single_rows singleSchemaName t)) as Hrows.
    { unfold single_rows, t'. cbn [t_rows with_rows].
      rewrite !list_filter_filter. apply list_filter_iff. intros r.
      unfold touched_row. rewrite <- updateKey_test. fold key.
      rewrite Is_true_true. tauto. }
    assert (one_row_per_field singleSchemaName t') as Hwf'.
    { destruct Hwf as [Hnd Htext]. unfold one_row_per_field. rewrite Hrows. split.
      - rewrite <- list_fmap_compose in *. by apply NoDup_fmap_filter.
      - apply Forall_forall. intros r [_ Hr]%list_elem_of_filter.
        by apply (proj1 (Forall_forall _ _) Htext). }
    assert (tables (with_tables db (<["SingleValue" := t']> (tables db)))
              !! "SingleValue" = Some t') as Ht' by apply lookup_insert_eq.
    rewrite (getSingle_run _ _ sv _ t' Hsv Ht'
               (single_value_table_columns t t' eq_refl Htable) Hwf').
    do 2 f_equal. unfold single_doc. rewrite Hrows.
    apply list_to_map_drop_key. intros r Hr. by apply (touched_iff_key _ _ t).
Qed.

End DeleteField.

Lemma singleton_delete_field_witness :
  ∃ db' doc,
    delete_ Sample.schemaMap "Settings" "currency" Sample.migrated = (Ok tt, db') ∧
    (∀ name fieldsArg,
       get Sample.schemaMap "Settings" name fieldsArg Sample.migrated
       = (Ok doc, Sample.migrated)) ∧
    (∀ name fieldsArg,
       get Sample.schemaMap "Settings" name fieldsArg db'
       = (Ok (delete "currency" doc), db')).
Proof.
  destruct (tables Sample.migrated !! "SingleValue") as [t|] eqn:Ht;
    [| vm_compute in Ht; discriminate Ht].
  apply (singleton_delete_field Sample.schemaMap "Settings" Sample.Settings
           "currency" Sample.migrated t).
  - reflexivity.
  - reflexivity.
  - eexists. reflexivity.
  - exact Ht.
  - vm_compute in Ht. injection Ht as <-. split; [|split].
    + apply (proj1 (Forall_forall (λ c, c ∈ column_names _) _)).
      apply (bool_decide_unpack _). vm_compute. exact I.
    + apply (proj1 (Forall_forall
               (λ c, col_primary c = true → col_name c = "name") _)).
      apply (bool_decide_unpack _). vm_compute. exact I.
    + apply (proj1 (Forall_forall
               (λ c, col_notnull c = true → col_name c ∈ single_value_columns) _)).
      apply (bool_decide_unpack _). vm_compute. exact I.
  - vm_compute in Ht. injection Ht as <-.
    split; apply (bool_decide_unpack _); vm_compute; exact I.
Defined.

(** ** What [getAll] returns *)

Lemma order_leb_total a b : order_leb a b = true ∨ order_leb b a = true.
Proof.
  destruct a as [|s|z|[]], b as [|s'|z'|[]]; cbn; auto using String.leb_total;
    rewrite ?Z.leb_le; lia.
Qed.

Global Instance row_le_total column o : Total (row_le column o).
Proof.
  intros r1 r2. unfold row_le. destruct o.
  - destruct (order_leb_total (cell r1 column) (cell r2 column)) as [->| ->]; auto.
  - destruct (order_leb_total (cell r2 column) (cell r1 column)) as [->| ->]; auto.
Qed.

Lemma Sorted_take {A} (R : relation A) n l : Sorted R l → Sorted R (take n l).
Proof.
  intros Hl. revert n. induction Hl as [|x l Hl IH Hx]; intros [|n]; cbn;
    try constructor.
  - apply IH.
  - destruct Hx as [|y l' Hxy]; destruct n; cbn; constructor; done.
Qed.

Lemma Sorted_drop {A} (R : relation A) n l : Sorted R l → Sorted R (drop n l).
Proof.
  revert l. induction n as [|n IH]; intros l Hl; [done|].
  destruct l as [|x l]; [done|]. cbn. apply IH. by apply Sorted_inv in Hl as [? _].
Qed.


(** The column [getAll] orders by: the one asked for, else [created] when
    the schema has that field. *)
Definition order_column (schema : Schema) (options : GetAllOptions) : option string :=
  match g_orderBy options with
  | Some c => Some c
  | None =>
      if bool_decide (Exists (λ f, fieldname f = "created") (fields schema))
      then Some "created" else None
  end.

(** The query [getAll] runs. *)
Definition getAll_query (schemaName : string) (schema : Schema)
    (options : GetAllOptions) (ws : list Where) : Query :=
  mkQuery schemaName (default ["name"] (g_fields options)) ws
    (truthy_string (g_groupBy options))
    ((λ c, (c, default desc (g_order options)))
       <$> truthy_string (order_column schema options))
    (truthy_number (g_offset options))
    (truthy_number (g_limit options)).

Section GetAllAnswers.
Variable schemaMap : SchemaMap.

Lemma getAll_Ok_inv schemaName options rows db db' :
  getAll schemaMap schemaName options db = (Ok rows, db') →
  db' = db ∧
  ∃ schema ws t,
    schema_lookup schemaMap schemaName = Some schema ∧
    applyFiltersToBuilder (default [] (g_filters options)) = Ok ws ∧
    tables db !! schemaName = Some t ∧
    query_compiles t (getAll_query schemaName schema options ws) = true ∧
    rows = select_rows t (getAll_query schemaName schema options ws).
Proof.
  unfold getAll. destruct (schema_lookup schemaMap schemaName) as [schema|]; [|done].
  intros H. bind_inv H. apply lift_Ok in H0 as [Hq ->].
  unfold getQueryBuilder in Hq. apply rbind_Ok in Hq as (ws & Hws & [= <-]).
  apply run_select_Ok_inv in H as (-> & t & Ht & Hc & ->).
  split; [done|]. by exists schema, ws, t.
Qed.



(** [getAll] answers in the order asked for: the rows are sorted on the
    order column (the one given, else [created] when the schema has such a
    field; descending unless stated otherwise), when that column is among
    the fields selected. *)
Theorem getAll_sorted schemaName schema options column rows db db' :
  schema_lookup schemaMap schemaName = Some schema →
  order_column schema options = Some column →
  column ≠ "" →
  column ∈ default ["name"] (g_fields options) →
  getAll schemaMap schemaName options db = (Ok rows, db') →
  Sorted (row_le column (default desc (g_order options))) rows.
Proof.
  intros Hs Hcol Hne Hsel (-> & schema' & ws & t & Hs' & Hws & Ht & Hc & ->)%getAll_Ok_inv.
  assert (schema' = schema) as -> by congruence.
  unfold query_compiles, getAll_query in Hc. cbn in Hc. rewrite Hcol in Hc. cbn in Hc.
  rewrite bool_decide_eq_false_2 in Hc by done. cbn in Hc.
  apply andb_true_iff in Hc as [_ Hc]. apply has_column_true in Hc.
  unfold select_rows, getAll_query. cbn. rewrite Hcol. cbn.
  rewrite bool_decide_eq_false_2 by done. cbn.
  set (o := default desc (g_order options)).
  set (fs := default ["name"] (g_fields options)) in *.
  apply (Sorted_fmap _ (row_le column o) (row_le column o)).
  - intros r1 r2. unfold row_le.
    by rewrite !(cell_project t fs _ column) by (by apply selected_column).
  - destruct (truthy_number (g_limit options)); cbn; [apply Sorted_take|];
      (destruct (truthy_number (g_offset options)); cbn; [apply Sorted_drop|]);
      apply Sorted_merge_sort, _.
Qed.

End GetAllAnswers.

(** The items of the first invoice, by position. *)
Definition itemsByIdx : GetAllOptions :=
  mkGetAllOptions (Some ["name"; "idx"]) (Some [("parent", FLit (VStr "INV-1"))])
    None (Some 1) None (Some "idx") (Some asc).

Definition firstItem : list Row :=
  match fst (getAll Sample.schemaMap "InvoiceItem" itemsByIdx Sample.oneInvoice) with
  | Ok rows => rows
  | Err _ => []
  end.


Lemma getAll_sorted_witness : Sorted (row_le "idx" asc) firstItem.
Proof.
  apply (getAll_sorted Sample.schemaMap "InvoiceItem" Sample.InvoiceItem itemsByIdx
           "idx" firstItem Sample.oneInvoice Sample.oneInvoice).
  - reflexivity.
  - reflexivity.
  - discriminate.
  - apply (bool_decide_unpack _). vm_compute. exact I.
  - vm_compute. reflexivity.
Defined.

(** ** [update] and the children it is given *)





Lemma name_of_stored (m : FieldValueMap) : stored_value m "name" = name_of m.
Proof. reflexivity. Qed.

Section Reconcile.
Variable randomString : nat → string.
Variable schemaMap : SchemaMap.


















Variable isoTime : nat → string.
Variable SYSTEM : string.


End Reconcile.









(** ** Running [migrate] again *)

(** The shape of a table: its columns and foreign keys. *)
Definition shape (db : Database) (T : string) : option (list Column * list ForeignKey) :=
  (λ t, (t_columns t, t_foreign t)) <$> tables db !! T.

(** A computation that, however it ends, leaves the shape of every table
    as it was. *)
Definition keeps_shape {A} (c : M A) : Prop :=
  ∀ db T, shape (c db).2 T = shape db T.


Lemma keeps_shape_throw {A} e : keeps_shape (throw e : M A).
Proof. done. Qed.










Section Idempotent.
Variable typeMap : string → option string.
Variable randomString isoTime : nat → string.
Variable SYSTEM : string.
Variable schemaMap : SchemaMap.




(** The fields that get a column: every type but Table that the type map
    gives a column type. *)
Definition makes_column (f : Field) : Prop :=
  fieldtype f ≠ FieldTypeEnum_Table ∧ is_Some (truthy_string (typeMap (fieldtype f))).

Global Instance makes_column_dec f : Decision (makes_column f).
Proof. unfold makes_column. apply _. Defined.


















End Idempotent.










(** ** [exists] after [insert] and after [delete] *)

Section ExistsAfter.
Variable randomString isoTime : nat → string.
Variable SYSTEM : string.
Variable schemaMap : SchemaMap.

(** After a successful [insert], [exists] finds the row under the name the
    returned map carries. *)
Theorem insert_then_exists schemaName schema (R R' : FieldValueMap) n db db' :
  schema_lookup schemaMap schemaName = Some schema →
  isSingle schema = false →
  has_name_field schema →
  insert randomString isoTime SYSTEM schemaMap schemaName R db = (Ok R', db') →
  R' !! "name" = Some (FRaw (VStr n)) →
  exists_ schemaMap schemaName (Some (VStr n)) db' = (Ok true, db').
Proof.
  intros Hs Hsingle [Hplain Hnotable] H Hname. unfold insert in H.
  rewrite (bind_step _ _ _ _ _ (the_schema_run _ _ _ db Hs)), Hsingle in H.
  bind_inv H. rename a into R1.
  apply (insertOrUpdateChildren_insert _ _ _ schema) in H as [Hext Hkeep]; [|done].
  rewrite Hkeep in Hname by done.
  apply insertOne_Ok_inv in H0
    as (schema' & t & validMap & dbn & Hs' & _ & Hv & Ht & Hkc & _ & ->).
  assert (schema' = schema) as -> by congruence.
  fold (plain_fields schema) in Hv.
  assert (validMap !! "name" = Some (VStr n)) as Hvn.
  { rewrite (validMap_of_lookup _ _ _ Hv), bool_decide_eq_true_2 by done.
    unfold stored_value. by rewrite Hname. }
  assert ("name" ∈ column_names t) as Hcol
    by (by eapply (proj1 (keys_are_columns_spec _ _) Hkc)).
  specialize (Hext schemaName). cbn in Hext. rewrite lookup_insert_eq in Hext.
  destruct Hext as [more Hdb'].
  rewrite (exists_collection_run _ _ schema _ _ _ Hs Hsingle Hdb').
  2: { cbn [forallb]. rewrite where_compiles_eq.
       by rewrite (proj2 (has_column_true _ "name")). }
  do 2 f_equal. apply bool_decide_eq_true_2. cbn [t_rows with_rows].
  enough (filter (λ r, wheres_test [Where2 "name" (OVal (VStr n))] r)
            ((t_rows t ++ [new_row t validMap]) ++ more) ≠ []) as Hne.
  { apply Nat.neq_0_lt_0. by intros E%nil_length_inv. }
  apply filter_nonempty. exists (new_row t validMap). split.
  - apply elem_of_app. left. apply elem_of_app. right. left.
  - apply Is_true_true. rewrite wheres_test_single. apply where_test_eq_text.
    by apply cell_new_row_given.
Qed.

(** After a successful [delete] of a name, [exists] no longer finds it. *)
Theorem delete_then_exists schemaName schema name db db' :
  schema_lookup schemaMap schemaName = Some schema →
  isSingle schema = false →
  delete_ schemaMap schemaName name db = (Ok tt, db') →
  exists_ schemaMap schemaName (Some (VStr name)) db' = (Ok false, db').
Proof.
  intros Hs Hsingle H. unfold delete_ in H.
  rewrite (bind_step _ _ _ _ _ (the_schema_run _ _ _ db Hs)), Hsingle in H.
  bind_inv H. bind_inv H. unfold deleteOne in H0.
  apply run_delete_settles in H0.
  apply delete_children_settle in H as [Hkeep _].
  apply getTableFields_run with (db := db0) in Hs as Hfields.
  rewrite Hfields in H1. injection H1 as _ <-.
  destruct (Hkeep _ _ H0) as (t & Ht & Hc & Hnone).
  rewrite (exists_collection_run _ _ schema _ _ t) by done.
  do 2 f_equal. apply bool_decide_eq_false_2.
  rewrite filter_none; [cbn; lia|]. intros r Hr. by apply Hnone.
Qed.

End ExistsAfter.

Lemma insert_then_exists_witness :
  exists_ Sample.schemaMap "Invoice" (Some (VStr "INV-1")) Sample.oneInvoice
  = (Ok true, Sample.oneInvoice).
Proof.
  apply (insert_then_exists Sample.randomString Sample.isoTime Sample.SYSTEM
           Sample.schemaMap "Invoice" Sample.Invoice Sample.invoice
           (match fst (insert Sample.randomString Sample.isoTime Sample.SYSTEM
                         Sample.schemaMap "Invoice" Sample.invoice Sample.migrated)
            with Ok m => m | Err _ => ∅ end) "INV-1" Sample.migrated).
  - reflexivity.
  - reflexivity.
  - split; apply (bool_decide_unpack _); vm_compute; exact I.
  - vm_compute. reflexivity.
  - vm_compute. reflexivity.
Defined.

Lemma delete_then_exists_witness :
  exists_ Sample.schemaMap "Invoice" (Some (VStr "INV-1"))
    (snd (delete_ Sample.schemaMap "Invoice" "INV-1" Sample.oneInvoice))
  = (Ok false, snd (delete_ Sample.schemaMap "Invoice" "INV-1" Sample.oneInvoice)).
Proof.
  apply (delete_then_exists Sample.schemaMap "Invoice" Sample.Invoice "INV-1"
           Sample.oneInvoice).
  - reflexivity.
  - reflexivity.
  - vm_compute. reflexivity.
Defined.
